(** * Record reconciliation of the app-store scraper (src/scraper.ts)

    A shallow embedding of the part of [scraper.ts] that turns the two raw
    result arrays into the exported rows: the retrieval wrapper around
    [Promise.all], the two per-store duplicate filters, the cross-store
    merge loop and the final [bothAppStores] projection.

    JavaScript values that matter here are modelled as follows.
    - A property that may be [undefined] is an [option]; [None] is
      [undefined].
    - A [Map<string, CombinedApp>] is an association list in insertion
      order with pairwise distinct keys; a key is a JS value that is either
      a string or [undefined].
    - An uncaught exception or a rejected promise is [None] in the [option]
      error monad. *)

From stdpp Require Import base option list strings.

Open Scope string_scope.
Open Scope list_scope.

(** ** Source records *)

(** A JS value in title position: a string, or [undefined] when the record
    has no [title] property. *)
Abbreviation jsval := (option string).

(** The object returned by one of the two scrapers.  [summary] is [Some _]
    exactly when the object has an own property ["summary"]; the fields the
    script never inspects are kept as an opaque list of properties. *)
Record App := mkApp {
  title : jsval;
  searchTerm : jsval;
  summary : jsval;
  description : jsval;
  other : list (string * string)
}.

#[global] Instance App_eq_dec : EqDecision App.
Proof. solve_decision. Defined.

(** scraper.ts, line 70: [Object.prototype.hasOwnProperty.call(app, "summary")]. *)
Definition isGoogleApp (app : App) : bool :=
  match summary app with Some _ => true | None => false end.

(** ** Combined records *)

(** Modelled from the spec: the class [CombinedApp] of [./interfaces], which
    is imported by scraper.ts but is not part of the sources.  One field per
    field of each source variant, all absent in a fresh object. *)
Record CombinedApp := mkCombinedApp {
  titleGoogle : jsval;
  searchTermGoogle : jsval;
  summaryGoogle : jsval;
  otherGoogle : list (string * string);
  titleApple : jsval;
  searchTermApple : jsval;
  descriptionApple : jsval;
  otherApple : list (string * string)
}.

#[global] Instance CombinedApp_eq_dec : EqDecision CombinedApp.
Proof. solve_decision. Defined.

(** Modelled from the spec: [new CombinedApp()], the constructor of the
    missing class; nothing has been contributed yet. *)
Definition newCombinedApp : CombinedApp :=
  mkCombinedApp None None None [] None None None [].

(** Modelled from the spec: the method [addGoogleAppData] of the missing
    class.  Every Google field of the combined record is overwritten with the
    record's value and the provenance marker [titleGoogle] becomes the
    record's title; the Apple side is left alone. *)
Definition addGoogleAppData (this : CombinedApp) (app : App) : CombinedApp :=
  mkCombinedApp (title app) (searchTerm app) (summary app) (other app)
                (titleApple this) (searchTermApple this)
                (descriptionApple this) (otherApple this).

(** Modelled from the spec: the method [addAppleAppData] of the missing
    class, the mirror image of [addGoogleAppData]. *)
Definition addAppleAppData (this : CombinedApp) (app : App) : CombinedApp :=
  mkCombinedApp (titleGoogle this) (searchTermGoogle this)
                (summaryGoogle this) (otherGoogle this)
                (title app) (searchTerm app) (description app) (other app).

(** ** The JavaScript [Map] *)

Module JsMap.
Section JsMap.
Context {V : Type}.

(** Entries in insertion order. *)
Local Abbreviation t := (list (jsval * V)).

Definition keys (m : t) : list jsval := map fst m.

(** [Map.prototype.values], in insertion order. *)
Definition values (m : t) : list V := map snd m.

(** [Map.prototype.size]. *)
Definition size (m : t) : nat := length m.

(** [Map.prototype.get]; [None] is the [undefined] of a missing key. *)
Fixpoint get (m : t) (k : jsval) : option V :=
  match m with
  | [] => None
  | (k', v) :: m' => if decide (k' = k) then Some v else get m' k
  end.

(** [Map.prototype.has]. *)
Fixpoint has (m : t) (k : jsval) : bool :=
  match m with
  | [] => false
  | (k', _) :: m' => if decide (k' = k) then true else has m' k
  end.

(** The entry of an existing key keeps its place and gets the new value;
    nothing happens for a key that is not in the map. *)
Fixpoint update (m : t) (k : jsval) (v : V) : t :=
  match m with
  | [] => []
  | (k', v') :: m' =>
      if decide (k' = k) then (k', v) :: m' else (k', v') :: update m' k v
  end.

(** [Map.prototype.set]: an existing key is updated in place, a new key is
    appended. *)
Definition set (m : t) (k : jsval) (v : V) : t :=
  if has m k then update m k v else m ++ [(k, v)].

(** Find-or-create followed by a change of the found object, the shape of
    all three loops of the script in one function. *)
Definition upsert (new : V) (f : V → V) (m : t) (k : jsval) : t :=
  if has m k
  then update m k (f (default new (get m k)))
  else m ++ [(k, f new)].

End JsMap.
End JsMap.

Abbreviation JMap := (list (jsval * CombinedApp)).

(** ** Step 2 of the script: duplicates within one store *)

(** Body of the loop at lines 189-194.  The object returned by [get] is the
    one stored in the map, so the method call changes the map entry; that is
    the [update].  The optional chaining [?.] skips the call when [get]
    returns [undefined]. *)
Definition filterGoogleStep (filteredGoogleApps : JMap) (app : App) : JMap :=
  let m :=
    if negb (JsMap.has filteredGoogleApps (title app))
    then JsMap.set filteredGoogleApps (title app) newCombinedApp
    else filteredGoogleApps in
  match JsMap.get m (title app) with
  | Some existingApp => JsMap.update m (title app) (addGoogleAppData existingApp app)
  | None => m
  end.

(** Body of the loop at lines 196-201. *)
Definition filterAppleStep (filteredAppleApps : JMap) (app : App) : JMap :=
  let m :=
    if negb (JsMap.has filteredAppleApps (title app))
    then JsMap.set filteredAppleApps (title app) newCombinedApp
    else filteredAppleApps in
  match JsMap.get m (title app) with
  | Some existingApp => JsMap.update m (title app) (addAppleAppData existingApp app)
  | None => m
  end.

(** The map [filteredGoogleApps] after the loop over [playStoreArray]. *)
Definition filteredGoogleApps (playStoreArray : list App) : JMap :=
  fold_left filterGoogleStep playStoreArray [].

(** The map [filteredAppleApps] after the loop over [appStoreArray]. *)
Definition filteredAppleApps (appStoreArray : list App) : JMap :=
  fold_left filterAppleStep appStoreArray [].

(** The number logged at lines 203-204:
    [array.length - filtered.size]. *)
Definition removedDuplicates (array : list App) (filtered : JMap) : nat :=
  length array - JsMap.size filtered.

(** ** Step 3 of the script: both stores together *)

(** Body of the loop at lines 210-218.  [apps.get(app.title)!] is only a
    type assertion: calling a method on [undefined] would throw a
    [TypeError], which is the [None] here. *)
Definition appsStep (apps : JMap) (app : App) : option JMap :=
  let m :=
    if negb (JsMap.has apps (title app))
    then JsMap.set apps (title app) newCombinedApp
    else apps in
  exisitingApp ← JsMap.get m (title app);
  Some (JsMap.update m (title app)
          (if isGoogleApp app
           then addGoogleAppData exisitingApp app
           else addAppleAppData exisitingApp app)).

Fixpoint appsLoop (apps : JMap) (array : list App) : option JMap :=
  match array with
  | [] => Some apps
  | app :: rest => m ← appsStep apps app; appsLoop m rest
  end.

(** The map [apps] after the loop over
    [[...playStoreArray, ...appStoreArray]]. *)
Definition apps (playStoreArray appStoreArray : list App) : option JMap :=
  appsLoop [] (playStoreArray ++ appStoreArray).

(** ** The exported rows *)

(** JS truthiness of a value that is a string or [undefined]: only a
    non-empty string is truthy. *)
Definition truthy (v : jsval) : bool :=
  match v with
  | None => false
  | Some s => negb (bool_decide (s = ""))
  end.

(** [a && b]. *)
Definition jsAnd (a b : jsval) : jsval := if truthy a then b else a.

(** [{ ...app, bothAppStores: ... }]: the own properties of the combined
    record and the new flag. *)
Record ExportedApp := mkExportedApp {
  app_fields : CombinedApp;
  bothAppStores : bool
}.

#[global] Instance ExportedApp_eq_dec : EqDecision ExportedApp.
Proof. solve_decision. Defined.

(** The arrow function of line 220. *)
Definition withBothAppStores (app : CombinedApp) : ExportedApp :=
  mkExportedApp app (truthy (jsAnd (titleApple app) (titleGoogle app))).

(** Line 220: [[...apps.values()].map(...)]. *)
Definition appsAsArray (apps : JMap) : list ExportedApp :=
  map withBothAppStores (JsMap.values apps).

(** ** Step 1 of the script: retrieval *)

(** How a promise settles. *)
Inductive Settled (A : Type) : Type :=
  | Fulfilled (value : A)
  | Rejected.
Arguments Fulfilled {A} value.
Arguments Rejected {A}.

(** Lines 44-55.  [search] stands for [appStore.scraper.search] with the
    fixed [num: 250].  Every record of a fulfilled search is stamped with
    the search term; a rejected search rejects the [scrape]. *)
Definition scrape (search : string → Settled (list App)) (searchTerm : string)
  : Settled (list App) :=
  match search searchTerm with
  | Fulfilled found =>
      Fulfilled (map (λ app, mkApp (title app) (Some searchTerm) (summary app)
                                   (description app) (other app)) found)
  | Rejected => Rejected
  end.

(** [Promise.all]: fulfilled with all the values when every promise is
    fulfilled, rejected when one of them is. *)
Fixpoint promiseAll {A} (promises : list (Settled A)) : Settled (list A) :=
  match promises with
  | [] => Fulfilled []
  | Fulfilled x :: rest =>
      match promiseAll rest with
      | Fulfilled xs => Fulfilled (x :: xs)
      | Rejected => Rejected
      end
  | Rejected :: _ => Rejected
  end.

(** [await promise.catch(error => console.log(error))]: the handler returns
    nothing, so a rejection becomes the value [undefined] ([None]). *)
Definition awaitCatchLog {A} (promise : Settled A) : option A :=
  match promise with
  | Fulfilled value => Some value
  | Rejected => None
  end.

(** [(value as Array<...>).flat()]; the cast does nothing at run time, and
    reading [flat] off [undefined] throws a [TypeError] (the [None] of the
    result). *)
Definition flat (value : option (list (list App))) : option (list App) :=
  match value with
  | Some arrays => Some (concat arrays)
  | None => None
  end.

(** Lines 169-173 and 175-179, for one store. *)
Definition storeArray (search : string → Settled (list App))
  (searchTerms : list string) : option (list App) :=
  flat (awaitCatchLog (promiseAll (map (scrape search) searchTerms))).

(** ** The whole run *)

(** What one run of the script shows: the two log lines of step 2 as
    (removed, remaining) and the array handed to [saveToCsv]. *)
Record Run := mkRun {
  googleLog : nat * nat;
  appleLog : nat * nat;
  exported : list ExportedApp
}.

(** Lines 165-223 of the top-level function.  [None]: the function threw
    and [saveToCsv] was never called. *)
Definition main (googleSearch appleSearch : string → Settled (list App))
  (searchTerms : list string) : option Run :=
  playStoreArray ← storeArray googleSearch searchTerms;
  appStoreArray ← storeArray appleSearch searchTerms;
  let filteredGoogle := filteredGoogleApps playStoreArray in
  let filteredApple := filteredAppleApps appStoreArray in
  m ← apps playStoreArray appStoreArray;
  Some (mkRun
          (removedDuplicates playStoreArray filteredGoogle, JsMap.size filteredGoogle)
          (removedDuplicates appStoreArray filteredApple, JsMap.size filteredApple)
          (appsAsArray m)).

(** ** Notions used to state the properties *)

(** The distinct elements of a list, each at the place of its first
    occurrence. *)
Fixpoint firstOccurrences (l : list jsval) : list jsval :=
  match l with
  | [] => []
  | k :: l' => k :: filter (λ k', k' ≠ k) (firstOccurrences l')
  end.

(** The exported row that belongs to a title: the rows are paired with the
    keys of the map they come from. *)
Definition rowFor (m : JMap) (k : jsval) : option ExportedApp :=
  JsMap.get (zip (JsMap.keys m) (appsAsArray m)) k.

(** The last record of an array that carries a given title. *)
Definition lastTitled (k : jsval) (array : list App) : option App :=
  last (filter (λ app, title app = k) array).

(** Reading a missing title as the empty string. *)
Definition titleOrEmpty (app : App) : App :=
  mkApp (Some (default "" (title app))) (searchTerm app) (summary app)
        (description app) (other app).

(** The Google fields of [from] written into [this]. *)
Definition copyGoogleSide (this from : CombinedApp) : CombinedApp :=
  mkCombinedApp (titleGoogle from) (searchTermGoogle from)
                (summaryGoogle from) (otherGoogle from)
                (titleApple this) (searchTermApple this)
                (descriptionApple this) (otherApple this).

(** The Apple fields of [from] written into [this]. *)
Definition copyAppleSide (this from : CombinedApp) : CombinedApp :=
  mkCombinedApp (titleGoogle this) (searchTermGoogle this)
                (summaryGoogle this) (otherGoogle this)
                (titleApple from) (searchTermApple from)
                (descriptionApple from) (otherApple from).

(** Find-or-create the combined record of the entry's key, then copy the
    entry's fields into it. *)
Definition mergeEntry (copy : CombinedApp → CombinedApp → CombinedApp)
  (m : JMap) (entry : jsval * CombinedApp) : JMap :=
  let m1 :=
    if negb (JsMap.has m entry.1) then JsMap.set m entry.1 newCombinedApp else m in
  match JsMap.get m1 entry.1 with
  | Some existing => JsMap.update m1 entry.1 (copy existing entry.2)
  | None => m1
  end.

(** The cross-store merge as the spec describes the alternative: run on the
    two filtered maps instead of the raw arrays.  Every entry of the Google
    map, then every entry of the Apple map, is folded into one map under its
    key; an entry contributes the fields of its own store. *)
Definition mergeDeduplicated (filteredGoogle filteredApple : JMap) : JMap :=
  fold_left (mergeEntry copyAppleSide) filteredApple
    (fold_left (mergeEntry copyGoogleSide) filteredGoogle []).

(** Position of a key in a list of keys. *)
Fixpoint indexOf (k : jsval) (l : list jsval) : option nat :=
  match l with
  | [] => None
  | k' :: l' => if decide (k' = k) then Some 0 else S <$> indexOf k l'
  end.

(** The place of the combined record of title [k] in the mapping. *)
Definition entryIndex (m : JMap) (k : jsval) : option nat :=
  indexOf k (JsMap.keys m).

(** The [bothAppStores] flag exported for title [k], if there is a row for
    it. *)
Definition flagFor (m : JMap) (k : jsval) : option bool :=
  bothAppStores <$> rowFor m k.

(** Does an array hold a record titled [k]; one of the Google variant; one
    of the Apple variant. *)
Definition hasTitle (k : jsval) (array : list App) : bool :=
  existsb (λ app, bool_decide (title app = k)) array.

Definition googleHit (k : jsval) (array : list App) : bool :=
  existsb (λ app, bool_decide (title app = k) && isGoogleApp app) array.

Definition appleHit (k : jsval) (array : list App) : bool :=
  existsb (λ app, bool_decide (title app = k) && negb (isGoogleApp app)) array.

(** One step of a loop that files an item [x] under [key x] and lets [add]
    change the combined record found or created there. *)
Definition foldStep {R} (key : R → jsval) (add : CombinedApp → R → CombinedApp)
  (m : JMap) (x : R) : JMap :=
  JsMap.upsert newCombinedApp (λ e, add e x) m (key x).

(** What one item does to the entry of key [k]. *)
Definition contribute {R} (key : R → jsval) (add : CombinedApp → R → CombinedApp)
  (k : jsval) (o : option CombinedApp) (x : R) : option CombinedApp :=
  if decide (key x = k) then Some (add (default newCombinedApp o) x) else o.

(** The combination of the two methods chosen by [isGoogleApp] in the merge
    loop. *)
Definition addByVariant (e : CombinedApp) (app : App) : CombinedApp :=
  if isGoogleApp app then addGoogleAppData e app else addAppleAppData e app.

(** The fields a combined record holds for each of the two stores. *)
Definition googleSide (c : CombinedApp) :=
  (titleGoogle c, searchTermGoogle c, summaryGoogle c, otherGoogle c).

Definition appleSide (c : CombinedApp) :=
  (titleApple c, searchTermApple c, descriptionApple c, otherApple c).

(** Sample inputs. *)
Definition twoHitsArray : list App :=
  [mkApp (Some "Foo") (Some "a") (Some "first") None [];
   mkApp (Some "Bar") (Some "a") (Some "other") None [];
   mkApp (Some "Foo") (Some "b") (Some "second") None []].

Definition fooBarFoo : list App :=
  [mkApp (Some "Foo") (Some "x") (Some "s1") None [];
   mkApp (Some "Bar") (Some "x") (Some "s2") None [];
   mkApp (Some "Foo") (Some "y") (Some "s3") None []].

Definition barBaz : list App :=
  [mkApp (Some "Bar") (Some "x") None (Some "d1") [];
   mkApp (Some "Baz") (Some "y") None (Some "d2") []].

Definition titled (t : string) : App := mkApp (Some t) None (Some "s") None [].

Definition missingAndEmpty : list App :=
  [mkApp None (Some "x") (Some "s1") None [];
   mkApp (Some "") (Some "x") (Some "s2") None []].

Definition searchFailingOnChat (term : string) : Settled (list App) :=
  if decide (term = "maps")
  then Fulfilled [mkApp (Some "Maps") None (Some "s") None []]
  else Rejected.

Definition searchOneApple (term : string) : Settled (list App) :=
  Fulfilled [mkApp (Some "Maps") None None (Some "d") []].

(** ** Further notions *)


(** The last record titled [k] among those the merge loop takes for Google
    records, and among those it takes for Apple records. *)
Definition lastGoogleTitled (k : jsval) (array : list App) : option App :=
  lastTitled k (filter (λ app, isGoogleApp app = true) array).

Definition lastAppleTitled (k : jsval) (array : list App) : option App :=
  lastTitled k (filter (λ app, isGoogleApp app = false) array).

(** The combined record that holds the fields of a Google record and of an
    Apple record, each of which may be missing. *)
Definition combinedOf (g a : option App) : CombinedApp :=
  mkCombinedApp (g ≫= title) (g ≫= searchTerm) (g ≫= summary)
                (default [] (other <$> g))
                (a ≫= title) (a ≫= searchTerm) (a ≫= description)
                (default [] (other <$> a)).

(** ** Search terms (lines 104-161) *)

(** A string whose characters the script looks at is the list of its UTF-16
    code units. *)
Abbreviation jsstring := (list N).

(** The code units of a literal made of ASCII characters. *)
Definition codeUnits (s : string) : jsstring :=
  Ascii.N_of_ascii <$> String.list_ascii_of_string s.

(** The class [\s] of a regular expression without the [u] flag: the white
    space and line terminator code units of ECMAScript. *)
Definition isWhiteSpace (c : N) : bool :=
  bool_decide (c ∈ [9; 10; 11; 12; 13; 32; 160; 5760; 8232; 8233; 8239; 8287;
                    12288; 65279]%N)
  || ((8192 <=? c)%N && (c <=? 8202)%N).

Fixpoint skipWhiteSpace (s : jsstring) : jsstring :=
  match s with
  | c :: s' => if isWhiteSpace c then skipWhiteSpace s' else s
  | [] => []
  end.

(** A match of [/\s*,\s*/] that starts at the head of [s]: the greedy [\s*]
    takes the whole run of white space, which must be followed by a comma,
    and the second [\s*] takes the run after the comma.  The result is what
    follows the match. *)
Definition matchCommaSeparator (s : jsstring) : option jsstring :=
  match skipWhiteSpace s with
  | c :: rest => if decide (c = 44%N) then Some (skipWhiteSpace rest) else None
  | [] => None
  end.

(** A match of a regular expression that is a plain sequence of characters,
    such as [/\r\n/], at the head of [s]. *)
Fixpoint matchLiteral (sep s : jsstring) : option jsstring :=
  match sep, s with
  | [], _ => Some s
  | c :: sep', d :: s' => if decide (c = d) then matchLiteral sep' s' else None
  | _ :: _, [] => None
  end.

Definition consFirst (c : N) (pieces : list jsstring) : list jsstring :=
  match pieces with
  | [] => [[c]]
  | piece :: rest => (c :: piece) :: rest
  end.

(** [String.prototype.split] with a regular expression none of whose matches
    is empty, and without a limit.  The separator is tried at every position
    from left to right; a match closes the current piece and the scan goes
    on behind the match; at the end of the string the current piece is
    pushed.  Every step drops a code unit, so [fuel] above the length of [s]
    is never used up. *)
Fixpoint splitLoop (matchAt : jsstring → option jsstring) (fuel : nat)
  (s : jsstring) : list jsstring :=
  match fuel with
  | 0 => [s]
  | S fuel' =>
      match s with
      | [] => [[]]
      | c :: s' =>
          match matchAt s with
          | Some rest => [] :: splitLoop matchAt fuel' rest
          | None => consFirst c (splitLoop matchAt fuel' s')
          end
      end
  end.

Definition jsSplit (matchAt : jsstring → option jsstring) (s : jsstring)
  : list jsstring :=
  splitLoop matchAt (S (length s)) s.

(** Lines 112-136, with the result of [readInput] and [process.platform]
    as arguments; [None] is [null].  The condition [if (input)] is false for
    [null] and for the empty string. *)
Definition readSearchTermsFromFile (platform : string) (input : option jsstring)
  : option (list jsstring) :=
  match input with
  | Some ((_ :: _) as content) =>
      Some (if decide (platform = "win32")
            then jsSplit (matchLiteral [13; 10]%N) content
            else if decide (platform = "darwin")
            then jsSplit (matchLiteral [13]%N) content
            else if decide (platform = "linux")
            then jsSplit (matchLiteral [10]%N) content
            else [])
  | _ => None
  end.

(** Line 154: [answer.content.split(/\s*,\s*/).filter(searchTerm => searchTerm !== "")]. *)
Definition inputTerms (content : jsstring) : list jsstring :=
  filter (λ searchTerm, searchTerm ≠ []) (jsSplit matchCommaSeparator content).

(** Lines 145-156: the array [terms] handed to [checkboxPrompt]. *)
Definition terms (importedTerms : option (list jsstring)) (content : jsstring)
  : list jsstring :=
  default [] importedTerms ++ inputTerms content.

(** [Array.prototype.join], used to state what [split] keeps. *)
Fixpoint joinWith (sep : jsstring) (pieces : list jsstring) : jsstring :=
  match pieces with
  | [] => []
  | [piece] => piece
  | piece :: rest => piece ++ sep ++ joinWith sep rest
  end.

(** [sep] occurs somewhere inside [s]. *)
Definition occursIn (sep s : jsstring) : Prop :=
  ∃ before after, s = before ++ sep ++ after.



(** * Properties *)

(** ** The map operations *)

Section JsMapFacts.
Context {V : Type}.
Implicit Types (m : list (jsval * V)) (k : jsval) (v : V).

Lemma has_keys m k : JsMap.has m k = true ↔ k ∈ JsMap.keys m.
Proof.
  induction m as [|[k' v'] m IH]; simpl.
  - split; [discriminate | by intros ?%elem_of_nil].
  - rewrite elem_of_cons, <- IH.
    destruct (decide (k' = k)) as [->|Hk]; [tauto|].
    split; [tauto | by intros [->|?]].
Qed.

Lemma has_false_keys m k : JsMap.has m k = false ↔ k ∉ JsMap.keys m.
Proof. rewrite <- has_keys. by destruct (JsMap.has m k). Qed.

Lemma get_None_has m k : JsMap.get m k = None ↔ JsMap.has m k = false.
Proof.
  induction m as [|[k' v'] m IH]; simpl; [done|].
  case_decide; [split; discriminate | done].
Qed.

Lemma get_Some_has m k : is_Some (JsMap.get m k) ↔ JsMap.has m k = true.
Proof.
  rewrite <- not_eq_None_Some, get_None_has. by destruct (JsMap.has m k).
Qed.

Lemma keys_update m k v : JsMap.keys (JsMap.update m k v) = JsMap.keys m.
Proof.
  induction m as [|[k' v'] m IH]; simpl; [done|].
  case_decide; simpl; [done | by rewrite IH].
Qed.

Lemma get_update m k v k' :
  JsMap.get (JsMap.update m k v) k' =
  if decide (k = k') then (λ _, v) <$> JsMap.get m k else JsMap.get m k'.
Proof.
  induction m as [|[k0 v0] m IH]; simpl; [by case_decide|].
  destruct (decide (k0 = k)) as [->|Hk]; simpl.
  - by destruct (decide (k = k')) as [->|Hk'].
  - rewrite IH. destruct (decide (k0 = k')) as [->|Hk0]; [|done].
    by rewrite decide_False.
Qed.

Lemma keys_app m1 m2 : JsMap.keys (m1 ++ m2) = JsMap.keys m1 ++ JsMap.keys m2.
Proof. apply map_app. Qed.

Lemma get_app m1 m2 k :
  JsMap.get (m1 ++ m2) k =
  match JsMap.get m1 k with Some v => Some v | None => JsMap.get m2 k end.
Proof.
  induction m1 as [|[k' v'] m1 IH]; simpl; [done|]. by case_decide.
Qed.

Lemma keys_upsert new f m k :
  JsMap.keys (JsMap.upsert new f m k) =
  if JsMap.has m k then JsMap.keys m else JsMap.keys m ++ [k].
Proof.
  unfold JsMap.upsert. destruct (JsMap.has m k).
  - apply keys_update.
  - by rewrite keys_app.
Qed.

Lemma get_upsert new f m k k' :
  JsMap.get (JsMap.upsert new f m k) k' =
  if decide (k = k') then Some (f (default new (JsMap.get m k)))
  else JsMap.get m k'.
Proof.
  unfold JsMap.upsert. destruct (JsMap.has m k) eqn:Hhas.
  - rewrite get_update. case_decide; [|done].
    apply get_Some_has in Hhas as [v Hv]. by rewrite Hv.
  - rewrite get_app. simpl. apply get_None_has in Hhas.
    case_decide; subst.
    + by rewrite Hhas.
    + by destruct (JsMap.get m k').
Qed.

(** The body of a loop is an [upsert]; in particular the [get] after the
    find-or-create never returns [undefined]. *)
Lemma find_or_create_get new m k :
  let m1 := if negb (JsMap.has m k) then JsMap.set m k new else m in
  JsMap.get m1 k = Some (default new (JsMap.get m k)).
Proof.
  simpl. destruct (JsMap.has m k) eqn:Hhas; simpl.
  - apply get_Some_has in Hhas as [v Hv]. by rewrite Hv.
  - unfold JsMap.set. rewrite Hhas, get_app. apply get_None_has in Hhas.
    rewrite Hhas. simpl. by rewrite decide_True.
Qed.

Lemma update_fresh m k v v' :
  JsMap.has m k = false → JsMap.update (m ++ [(k, v)]) k v' = m ++ [(k, v')].
Proof.
  induction m as [|[k0 v0] m IH]; simpl; intros Hhas.
  - by rewrite decide_True.
  - case_decide; [done|]. by rewrite IH.
Qed.

Lemma find_or_create_update new f m k :
  let m1 := if negb (JsMap.has m k) then JsMap.set m k new else m in
  JsMap.update m1 k (f (default new (JsMap.get m k))) = JsMap.upsert new f m k.
Proof.
  simpl. unfold JsMap.upsert. destruct (JsMap.has m k) eqn:Hhas; simpl; [done|].
  unfold JsMap.set. rewrite Hhas, update_fresh by done.
  apply get_None_has in Hhas. by rewrite Hhas.
Qed.

End JsMapFacts.

(** ** First occurrences *)

Lemma elem_of_firstOccurrences l k : k ∈ firstOccurrences l ↔ k ∈ l.
Proof.
  induction l as [|k0 l IH]; simpl; [done|].
  rewrite !elem_of_cons, list_elem_of_filter, IH.
  destruct (decide (k = k0)); tauto.
Qed.

Lemma NoDup_firstOccurrences l : NoDup (firstOccurrences l).
Proof.
  induction l as [|k0 l IH]; simpl; constructor.
  - rewrite list_elem_of_filter. tauto.
  - by apply NoDup_filter.
Qed.

Lemma filter_not_in_snoc (seen l : list jsval) k :
  filter (λ k', k' ∉ seen ++ [k]) l =
  filter (λ k', k' ∉ seen) (filter (λ k', k' ≠ k) l).
Proof.
  rewrite list_filter_filter. apply list_filter_iff. intros k'.
  rewrite elem_of_app, list_elem_of_singleton. tauto.
Qed.

Lemma filter_not_in_seen (seen l : list jsval) k :
  k ∈ seen →
  filter (λ k', k' ∉ seen) (filter (λ k', k' ≠ k) l) =
  filter (λ k', k' ∉ seen) l.
Proof.
  intros Hk. rewrite list_filter_filter. apply list_filter_iff. intros k'.
  split; [tauto|]. intros Hk'. split; [done|]. by intros ->.
Qed.

Lemma filter_not_in_nil (l : list jsval) : filter (λ k', k' ∉ []) l = l.
Proof.
  induction l as [|k l IH]; [done|].
  rewrite filter_cons, IH. case_decide as Hk; [done|].
  by apply elem_of_nil in Hk.
Qed.

Lemma firstOccurrences_app l1 l2 :
  firstOccurrences (l1 ++ l2) =
  firstOccurrences l1 ++ filter (λ k, k ∉ firstOccurrences l1) (firstOccurrences l2).
Proof.
  induction l1 as [|k l1 IH]; simpl.
  - by rewrite filter_not_in_nil.
  - f_equal. rewrite IH, filter_app. f_equal.
    rewrite list_filter_filter. apply list_filter_iff. intros k'.
    rewrite not_elem_of_cons, list_elem_of_filter. tauto.
Qed.

(** ** The three loops as one fold *)

Section Loop.
Context {R : Type}.
Variable key : R → jsval.
Variable add : CombinedApp → R → CombinedApp.

Lemma keys_foldStep (m : JMap) r :
  JsMap.keys (foldStep key add m r) =
  if JsMap.has m (key r) then JsMap.keys m else JsMap.keys m ++ [key r].
Proof. apply keys_upsert. Qed.

Lemma get_foldStep (m : JMap) r k :
  JsMap.get (foldStep key add m r) k = contribute key add k (JsMap.get m k) r.
Proof.
  unfold foldStep, contribute.
  rewrite (get_upsert newCombinedApp (λ e, add e r) m (key r) k).
  by destruct (decide (key r = k)) as [->|].
Qed.

Lemma keys_fold rs (m : JMap) :
  JsMap.keys (fold_left (foldStep key add) rs m) =
  JsMap.keys m ++
  filter (λ k, k ∉ JsMap.keys m) (firstOccurrences (key <$> rs)).
Proof.
  revert m. induction rs as [|r rs IH]; intros m; simpl.
  - by rewrite app_nil_r.
  - rewrite IH, !keys_foldStep.
    destruct (JsMap.has m (key r)) eqn:Hhas.
    + apply has_keys in Hhas.
      rewrite filter_cons. case_decide; [tauto|].
      by rewrite filter_not_in_seen.
    + apply has_false_keys in Hhas.
      rewrite filter_cons. case_decide; [|tauto].
      rewrite <- app_assoc. simpl. by rewrite filter_not_in_snoc.
Qed.

Lemma get_fold rs (m : JMap) k :
  JsMap.get (fold_left (foldStep key add) rs m) k =
  fold_left (contribute key add k) rs (JsMap.get m k).
Proof.
  revert m. induction rs as [|r rs IH]; intros m; simpl; [done|].
  by rewrite IH, get_foldStep.
Qed.

Lemma NoDup_keys_fold rs (m : JMap) :
  NoDup (JsMap.keys m) → NoDup (JsMap.keys (fold_left (foldStep key add) rs m)).
Proof.
  intros Hm. rewrite keys_fold. apply NoDup_app. split; [done|]. split.
  - intros k Hk. rewrite list_elem_of_filter. tauto.
  - apply NoDup_filter, NoDup_firstOccurrences.
Qed.

Lemma contribute_other k rs o :
  Forall (λ r, key r ≠ k) rs → fold_left (contribute key add k) rs o = o.
Proof.
  revert o. induction rs as [|r rs IH]; intros o Hrs; simpl; [done|].
  inversion Hrs; subst. rewrite IH by done.
  unfold contribute. by rewrite decide_False.
Qed.

(** Only the records titled [k] matter for the entry of [k]. *)
Lemma contribute_filter k `{!∀ r, Decision (key r = k)} rs o :
  fold_left (contribute key add k) rs o =
  fold_left (contribute key add k) (filter (λ r, key r = k) rs) o.
Proof.
  revert o. induction rs as [|r rs IH]; intros o; simpl; [done|].
  destruct (decide (key r = k)) as [Hr|Hr].
  - rewrite filter_cons. case_decide; [|tauto]. simpl. apply IH.
  - rewrite filter_cons. case_decide; [tauto|]. rewrite IH. f_equal.
    unfold contribute. by rewrite decide_False.
Qed.

End Loop.

Lemma filterGoogleStep_upsert m app :
  filterGoogleStep m app = foldStep title addGoogleAppData m app.
Proof.
  unfold filterGoogleStep, foldStep. cbv zeta.
  rewrite (find_or_create_get newCombinedApp m (title app)).
  apply (find_or_create_update newCombinedApp (λ e, addGoogleAppData e app)).
Qed.

Lemma filterAppleStep_upsert m app :
  filterAppleStep m app = foldStep title addAppleAppData m app.
Proof.
  unfold filterAppleStep, foldStep. cbv zeta.
  rewrite (find_or_create_get newCombinedApp m (title app)).
  apply (find_or_create_update newCombinedApp (λ e, addAppleAppData e app)).
Qed.

Lemma appsStep_upsert m app :
  appsStep m app = Some (foldStep title addByVariant m app).
Proof.
  unfold appsStep, foldStep. cbv zeta.
  rewrite (find_or_create_get newCombinedApp m (title app)). simpl. f_equal.
  apply (find_or_create_update newCombinedApp (λ e, addByVariant e app)).
Qed.

Lemma filteredGoogleApps_fold rs :
  filteredGoogleApps rs = fold_left (foldStep title addGoogleAppData) rs [].
Proof.
  unfold filteredGoogleApps. generalize (@nil (jsval * CombinedApp)).
  induction rs as [|r rs IH]; intros m; simpl; [done|].
  by rewrite filterGoogleStep_upsert, IH.
Qed.

Lemma filteredAppleApps_fold rs :
  filteredAppleApps rs = fold_left (foldStep title addAppleAppData) rs [].
Proof.
  unfold filteredAppleApps. generalize (@nil (jsval * CombinedApp)).
  induction rs as [|r rs IH]; intros m; simpl; [done|].
  by rewrite filterAppleStep_upsert, IH.
Qed.

Lemma appsLoop_fold rs m :
  appsLoop m rs = Some (fold_left (foldStep title addByVariant) rs m).
Proof.
  revert m. induction rs as [|r rs IH]; intros m; simpl; [done|].
  rewrite appsStep_upsert. simpl. apply IH.
Qed.

(** The merge loop never throws. *)
Lemma apps_fold gs as_ :
  apps gs as_ = Some (fold_left (foldStep title addByVariant) (gs ++ as_) []).
Proof. apply appsLoop_fold. Qed.

Lemma appsLoop_app m rs1 rs2 :
  appsLoop m (rs1 ++ rs2) = m' ← appsLoop m rs1; appsLoop m' rs2.
Proof. rewrite !appsLoop_fold, fold_left_app. simpl. by rewrite appsLoop_fold. Qed.

(** ** Entries and rows *)

Lemma filter_key_absent {V} (m : list (jsval * V)) k :
  k ∉ JsMap.keys m → filter (λ e, e.1 = k) m = [].
Proof.
  induction m as [|[k0 v0] m IH]; intros Hk; [done|].
  rewrite filter_cons. simpl in *. apply not_elem_of_cons in Hk as [Hne Hk].
  rewrite decide_False by done. by apply IH.
Qed.

Lemma count_key_NoDup {V} (m : list (jsval * V)) k :
  NoDup (JsMap.keys m) → k ∈ JsMap.keys m →
  length (filter (λ e, e.1 = k) m) = 1.
Proof.
  induction m as [|[k0 v0] m IH]; intros Hnd Hk.
  - by apply elem_of_nil in Hk.
  - rewrite filter_cons. simpl in *. apply NoDup_cons in Hnd as [Hk0 Hnd].
    destruct (decide (k0 = k)) as [->|Hne]; simpl.
    + by rewrite filter_key_absent.
    + apply IH; [done|]. apply elem_of_cons in Hk as [->|Hk]; done.
Qed.

Lemma omap_ext_in {A B} (f g : A → option B) (l : list A) :
  (∀ x, x ∈ l → f x = g x) → omap f l = omap g l.
Proof.
  induction l as [|x l IH]; intros Hfg; [done|].
  assert (omap f l = omap g l) as Hl.
  { apply IH. intros y Hy. apply Hfg. apply elem_of_cons; by right. }
  assert (f x = g x) as Hx by (apply Hfg, elem_of_cons; by left).
  change (omap f (x :: l)) with (match f x with Some y => y :: omap f l | None => omap f l end).
  change (omap g (x :: l)) with (match g x with Some y => y :: omap g l | None => omap g l end).
  by rewrite Hx, Hl.
Qed.

(** The values of a map are its entries read off key by key. *)
Lemma values_by_key {V B} (f : V → B) (m : list (jsval * V)) :
  NoDup (JsMap.keys m) →
  f <$> JsMap.values m = omap (λ k, f <$> JsMap.get m k) (JsMap.keys m).
Proof.
  induction m as [|[k0 v0] m IH]; simpl; intros Hnd; [done|].
  apply NoDup_cons in Hnd as [Hk0 Hnd].
  rewrite decide_True by done. simpl. f_equal.
  etrans; [exact (IH Hnd)|]. apply omap_ext_in. intros k Hk.
  rewrite decide_False; [done|]. by intros ->.
Qed.

Lemma rowFor_get (m : JMap) k :
  rowFor m k = withBothAppStores <$> JsMap.get m k.
Proof.
  unfold rowFor, appsAsArray.
  induction m as [|[k0 v0] m IH]; simpl; [done|].
  by destruct (decide (k0 = k)).
Qed.

(** ** The mapping holds one record per title *)

(** C9.  Cut the run of the merge loop after any number [n] of records: the
    mapping accumulated so far exists (no step has thrown), the rest of the
    loop continues from it, and no title occurs twice among its keys.  With
    [n] the length of the input this is the final mapping. *)
Theorem apps_keys_NoDup_every_step (playStoreArray appStoreArray : list App) (n : nat) :
  ∃ m, appsLoop [] (take n (playStoreArray ++ appStoreArray)) = Some m
       ∧ appsLoop m (drop n (playStoreArray ++ appStoreArray))
         = apps playStoreArray appStoreArray
       ∧ NoDup (JsMap.keys m).
Proof.
  set (rs := playStoreArray ++ appStoreArray).
  exists (fold_left (foldStep title addByVariant) (take n rs) []).
  split; [apply appsLoop_fold|]. split.
  - rewrite apps_fold, appsLoop_fold. fold rs. f_equal.
    rewrite <- fold_left_app. by rewrite take_drop.
  - apply NoDup_keys_fold. constructor.
Qed.

(** ** Order of the exported rows *)

(** C10.  The merge loop ends without throwing; the keys of its mapping are
    the distinct titles of [[...playStoreArray, ...appStoreArray]] in the
    order of their first occurrence, and the exported array lists, in that
    same order, the combined record stored under each of them.  The rows are
    a function of the two arrays, so two runs on the same arrays agree. *)
Theorem appsAsArray_insertion_order (playStoreArray appStoreArray : list App) :
  ∃ m, apps playStoreArray appStoreArray = Some m
       ∧ JsMap.keys m = firstOccurrences (title <$> playStoreArray ++ appStoreArray)
       ∧ appsAsArray m =
           omap (λ k, withBothAppStores <$> JsMap.get m k)
                (firstOccurrences (title <$> playStoreArray ++ appStoreArray)).
Proof.
  eexists. split; [apply apps_fold|].
  assert (JsMap.keys (fold_left (foldStep title addByVariant)
                        (playStoreArray ++ appStoreArray) [])
          = firstOccurrences (title <$> playStoreArray ++ appStoreArray)) as Hkeys.
  { rewrite keys_fold. simpl. apply filter_not_in_nil. }
  split; [done|]. rewrite <- Hkeys. unfold appsAsArray.
  apply (values_by_key withBothAppStores). rewrite Hkeys.
  apply NoDup_firstOccurrences.
Qed.

(** ** Last write wins within a store *)

Lemma CombinedApp_sides c1 c2 :
  googleSide c1 = googleSide c2 → appleSide c1 = appleSide c2 → c1 = c2.
Proof. destruct c1, c2. unfold googleSide, appleSide. simpl. congruence. Qed.

Lemma lastTitled_snoc k rs x :
  lastTitled k (rs ++ [x]) = if decide (title x = k) then Some x else lastTitled k rs.
Proof.
  unfold lastTitled. rewrite filter_app, filter_cons, filter_nil.
  destruct (decide (title x = k)).
  - apply last_snoc.
  - by rewrite app_nil_r.
Qed.

Lemma lastTitled_is_Some k rs : k ∈ title <$> rs → is_Some (lastTitled k rs).
Proof.
  induction rs as [|x rs IH] using rev_ind; intros Hk.
  - by apply elem_of_nil in Hk.
  - rewrite lastTitled_snoc. destruct (decide (title x = k)); [by eexists|].
    apply IH. rewrite fmap_app, elem_of_app in Hk. destruct Hk as [Hk|Hk]; [done|].
    apply list_elem_of_singleton in Hk. congruence.
Qed.

Lemma lastTitled_title k rs r : lastTitled k rs = Some r → title r = k.
Proof.
  induction rs as [|x rs IH] using rev_ind; [done|].
  rewrite lastTitled_snoc. destruct (decide (title x = k)); [congruence | done].
Qed.

Section Overwrite.
Context {X : Type}.
Variable add : CombinedApp → App → CombinedApp.
Variable keep : CombinedApp → X.
Hypothesis add_keep : ∀ e r, keep (add e r) = keep e.
Hypothesis add_ext : ∀ e1 e2 r, keep e1 = keep e2 → add e1 r = add e2 r.

Lemma keep_fold k rs o :
  keep (default newCombinedApp (fold_left (contribute title add k) rs o))
  = keep (default newCombinedApp o).
Proof.
  revert o. induction rs as [|r rs IH]; intros o; simpl; [done|].
  rewrite IH. unfold contribute. destruct (decide (title r = k)); [|done].
  simpl. apply add_keep.
Qed.

(** A method that overwrites its own side keeps nothing of the earlier
    records of that title: the entry is what the last one wrote. *)
Lemma fold_last k rs o :
  fold_left (contribute title add k) rs o =
  match lastTitled k rs with
  | Some r => Some (add (default newCombinedApp o) r)
  | None => o
  end.
Proof.
  induction rs as [|x rs IH] using rev_ind; [done|].
  rewrite fold_left_app, lastTitled_snoc. simpl. unfold contribute at 1.
  destruct (decide (title x = k)); [|done].
  f_equal. apply add_ext, keep_fold.
Qed.

End Overwrite.

Lemma fold_last_google k rs o :
  fold_left (contribute title addGoogleAppData k) rs o =
  match lastTitled k rs with
  | Some r => Some (addGoogleAppData (default newCombinedApp o) r)
  | None => o
  end.
Proof.
  apply (fold_last addGoogleAppData appleSide); [done|].
  intros e1 e2 r He. apply CombinedApp_sides; [done|]. exact He.
Qed.

Lemma fold_last_apple k rs o :
  fold_left (contribute title addAppleAppData k) rs o =
  match lastTitled k rs with
  | Some r => Some (addAppleAppData (default newCombinedApp o) r)
  | None => o
  end.
Proof.
  apply (fold_last addAppleAppData googleSide); [done|].
  intros e1 e2 r He. apply CombinedApp_sides; [exact He | done].
Qed.

Lemma keys_filteredGoogleApps rs :
  JsMap.keys (filteredGoogleApps rs) = firstOccurrences (title <$> rs).
Proof. rewrite filteredGoogleApps_fold, keys_fold. apply filter_not_in_nil. Qed.

Lemma keys_filteredAppleApps rs :
  JsMap.keys (filteredAppleApps rs) = firstOccurrences (title <$> rs).
Proof. rewrite filteredAppleApps_fold, keys_fold. apply filter_not_in_nil. Qed.

Lemma get_filteredGoogleApps rs k :
  JsMap.get (filteredGoogleApps rs) k =
  (λ r, addGoogleAppData newCombinedApp r) <$> lastTitled k rs.
Proof.
  rewrite filteredGoogleApps_fold, get_fold, fold_last_google. simpl.
  by destruct (lastTitled k rs).
Qed.

Lemma get_filteredAppleApps rs k :
  JsMap.get (filteredAppleApps rs) k =
  (λ r, addAppleAppData newCombinedApp r) <$> lastTitled k rs.
Proof.
  rewrite filteredAppleApps_fold, get_fold, fold_last_apple. simpl.
  by destruct (lastTitled k rs).
Qed.

(** C3.  For a title [k] that occurs in the array of one store, the filtered
    map of that store has exactly one entry under [k], and the combined
    record stored there carries the fields of the last record titled [k] and
    nothing else: nothing of an earlier record with that title survives.
    This holds for the Google loop and for the Apple loop. *)
Theorem filtered_last_write_wins (array : list App) (k : jsval) :
  k ∈ title <$> array →
  ∃ r, lastTitled k array = Some r
    ∧ length (filter (λ e, e.1 = k) (filteredGoogleApps array)) = 1
    ∧ JsMap.get (filteredGoogleApps array) k =
        Some (mkCombinedApp (title r) (searchTerm r) (summary r) (other r)
                            None None None [])
    ∧ length (filter (λ e, e.1 = k) (filteredAppleApps array)) = 1
    ∧ JsMap.get (filteredAppleApps array) k =
        Some (mkCombinedApp None None None []
                            (title r) (searchTerm r) (description r) (other r)).
Proof.
  intros Hk. destruct (lastTitled_is_Some k array Hk) as [r Hr].
  exists r. split; [done|].
  assert (k ∈ firstOccurrences (title <$> array)) as Hk'
    by by apply elem_of_firstOccurrences.
  repeat split.
  - apply count_key_NoDup; rewrite keys_filteredGoogleApps;
      [apply NoDup_firstOccurrences | done].
  - by rewrite get_filteredGoogleApps, Hr.
  - apply count_key_NoDup; rewrite keys_filteredAppleApps;
      [apply NoDup_firstOccurrences | done].
  - by rewrite get_filteredAppleApps, Hr.
Qed.

Lemma filtered_last_write_wins_witness :
  ∃ r, lastTitled (Some "Foo") twoHitsArray = Some r
    ∧ length (filter (λ e, e.1 = Some "Foo") (filteredGoogleApps twoHitsArray)) = 1
    ∧ JsMap.get (filteredGoogleApps twoHitsArray) (Some "Foo") =
        Some (mkCombinedApp (title r) (searchTerm r) (summary r) (other r)
                            None None None [])
    ∧ length (filter (λ e, e.1 = Some "Foo") (filteredAppleApps twoHitsArray)) = 1
    ∧ JsMap.get (filteredAppleApps twoHitsArray) (Some "Foo") =
        Some (mkCombinedApp None None None []
                            (title r) (searchTerm r) (description r) (other r)).
Proof.
  apply (filtered_last_write_wins twoHitsArray (Some "Foo")).
  apply elem_of_cons. by left.
Defined.

(** ** The Foo/Bar/Baz scenario *)

(** C1.  Whatever else the records carry: when the Play Store array holds
    Google records titled Foo, Bar, Foo and the App Store array holds Apple
    records titled Bar, Baz, the merge produces three combined records, for
    Foo, Bar and Baz, flagged false, true and false; and the Google filter
    sees 3 records, keeps 2 and reports 1 removed duplicate. *)
Theorem scenario_foo_bar_baz (playStoreArray appStoreArray : list App) :
  title <$> playStoreArray = [Some "Foo"; Some "Bar"; Some "Foo"] →
  Forall (λ app, isGoogleApp app = true) playStoreArray →
  title <$> appStoreArray = [Some "Bar"; Some "Baz"] →
  Forall (λ app, isGoogleApp app = false) appStoreArray →
  ∃ m, apps playStoreArray appStoreArray = Some m
    ∧ length (appsAsArray m) = 3
    ∧ JsMap.keys m = [Some "Foo"; Some "Bar"; Some "Baz"]
    ∧ bothAppStores <$> appsAsArray m = [false; true; false]
    ∧ length playStoreArray = 3
    ∧ JsMap.size (filteredGoogleApps playStoreArray) = 2
    ∧ removedDuplicates playStoreArray (filteredGoogleApps playStoreArray) = 1.
Proof.
  intros Hg HG Ha HA.
  destruct playStoreArray as [|[t1 ? s1 ? ?] [|[t2 ? s2 ? ?] [|[t3 ? s3 ? ?] [|]]]];
    try discriminate Hg.
  destruct appStoreArray as [|[t4 ? s4 ? ?] [|[t5 ? s5 ? ?] [|]]];
    try discriminate Ha.
  simpl in Hg, Ha. simplify_eq.
  repeat match goal with
         | H : Forall _ (_ :: _) |- _ => apply Forall_cons in H as [? H]
         end.
  unfold isGoogleApp in *. simpl in *.
  destruct s1, s2, s3, s4, s5; try discriminate.
  eexists. split; [reflexivity|]. by repeat split.
Qed.

Lemma scenario_foo_bar_baz_witness :
  ∃ m, apps fooBarFoo barBaz = Some m
    ∧ length (appsAsArray m) = 3
    ∧ JsMap.keys m = [Some "Foo"; Some "Bar"; Some "Baz"]
    ∧ bothAppStores <$> appsAsArray m = [false; true; false]
    ∧ length fooBarFoo = 3
    ∧ JsMap.size (filteredGoogleApps fooBarFoo) = 2
    ∧ removedDuplicates fooBarFoo (filteredGoogleApps fooBarFoo) = 1.
Proof.
  apply (scenario_foo_bar_baz fooBarFoo barBaz).
  - reflexivity.
  - repeat constructor.
  - reflexivity.
  - repeat constructor.
Defined.

(** ** Identity of a record is its exact title *)

Lemma indexOf_lookup k l i : indexOf k l = Some i → l !! i = Some k.
Proof.
  revert i. induction l as [|k' l IH]; intros i; simpl; [done|].
  destruct (decide (k' = k)) as [->|Hne].
  - by intros [= <-].
  - destruct (indexOf k l) as [j|]; [|done]. intros [= <-]. by apply IH.
Qed.

Lemma indexOf_is_Some k l : k ∈ l → is_Some (indexOf k l).
Proof.
  induction l as [|k' l IH]; simpl; intros Hk.
  - by apply elem_of_nil in Hk.
  - destruct (decide (k' = k)) as [->|Hne]; [by eexists|].
    apply elem_of_cons in Hk as [->|Hk]; [done|].
    destruct (IH Hk) as [j ->]. by eexists.
Qed.

Lemma title_in_keys_apps gs as_ r :
  r ∈ gs ++ as_ →
  title r ∈ JsMap.keys (fold_left (foldStep title addByVariant) (gs ++ as_) []).
Proof.
  intros Hr. rewrite keys_fold. simpl. rewrite filter_not_in_nil.
  apply elem_of_firstOccurrences, list_elem_of_fmap. by exists r.
Qed.

Lemma NoDup_keys_apps rs :
  NoDup (JsMap.keys (fold_left (foldStep title addByVariant) rs [])).
Proof. apply NoDup_keys_fold. constructor. Qed.

(** C4.  Every record of the two arrays has its combined record in the
    mapping, exactly one entry carries its title, and two records share
    their entry exactly when their titles are the same JS value.  Titles that
    differ in any character, be it case or white space, are different
    values; the empty string is a title like any other. *)
Theorem title_identity_exact (playStoreArray appStoreArray : list App) (r1 r2 : App) :
  r1 ∈ playStoreArray ++ appStoreArray →
  r2 ∈ playStoreArray ++ appStoreArray →
  ∃ m i j, apps playStoreArray appStoreArray = Some m
    ∧ entryIndex m (title r1) = Some i
    ∧ entryIndex m (title r2) = Some j
    ∧ (i = j ↔ title r1 = title r2)
    ∧ length (filter (λ e, e.1 = title r1) m) = 1.
Proof.
  intros H1 H2.
  set (m := fold_left (foldStep title addByVariant) (playStoreArray ++ appStoreArray) []).
  destruct (indexOf_is_Some (title r1) (JsMap.keys m)) as [i Hi];
    [by apply title_in_keys_apps|].
  destruct (indexOf_is_Some (title r2) (JsMap.keys m)) as [j Hj];
    [by apply title_in_keys_apps|].
  exists m, i, j. split; [apply apps_fold|]. repeat split; try done.
  - intros ->. apply indexOf_lookup in Hi, Hj. congruence.
  - intros Ht. unfold entryIndex in *. congruence.
  - apply count_key_NoDup; [apply NoDup_keys_apps | by apply title_in_keys_apps].
Qed.

Lemma title_identity_exact_witness :
  ∃ m i j, apps [titled "App"; titled ""] [titled "app"; titled ""] = Some m
    ∧ entryIndex m (title (titled "App")) = Some i
    ∧ entryIndex m (title (titled "app")) = Some j
    ∧ (i = j ↔ title (titled "App") = title (titled "app"))
    ∧ length (filter (λ e, e.1 = title (titled "App")) m) = 1.
Proof.
  apply (title_identity_exact [titled "App"; titled ""] [titled "app"; titled ""]).
  - apply elem_of_cons. by left.
  - apply elem_of_cons. right. apply elem_of_cons. right.
    apply elem_of_cons. by left.
Defined.

(** Case, white space and the empty title on a concrete input: the keys of
    the mapping, in order. *)
Example titles_not_normalised :
  JsMap.keys <$>
    apps [titled "App"; titled "app"; titled ""]
         [titled "App "; titled " App"; titled ""; titled "App"]
  = Some [Some "App"; Some "app"; Some ""; Some "App "; Some " App"].
Proof. reflexivity. Qed.

(** ** The flag and the provenance markers *)

Lemma truthy_jsAnd a b : truthy (jsAnd a b) = truthy a && truthy b.
Proof. unfold jsAnd. by destruct (truthy a) eqn:Ha; simpl. Qed.

Lemma flagFor_get m k :
  flagFor m k =
  (λ c, truthy (titleApple c) && truthy (titleGoogle c)) <$> JsMap.get m k.
Proof.
  unfold flagFor. rewrite rowFor_get.
  destruct (JsMap.get m k) as [c|]; simpl; [|done].
  by rewrite truthy_jsAnd.
Qed.

(** What the merge loop leaves under title [k], read through the three
    things the flag depends on. *)
Lemma fold_provenance k rs o :
  let F := fold_left (contribute title addByVariant k) rs o in
  (if F is Some _ then true else false)
    = (if o is Some _ then true else false) || hasTitle k rs
  ∧ titleGoogle (default newCombinedApp F) =
      (if googleHit k rs then k else titleGoogle (default newCombinedApp o))
  ∧ titleApple (default newCombinedApp F) =
      (if appleHit k rs then k else titleApple (default newCombinedApp o)).
Proof.
  revert o. induction rs as [|r rs IH]; intros o; simpl.
  - by rewrite orb_false_r.
  - destruct (IH (contribute title addByVariant k o r)) as (IH1 & IH2 & IH3).
    simpl in IH1, IH2, IH3. rewrite IH1, IH2, IH3. clear IH IH1 IH2 IH3.
    unfold contribute, addByVariant.
    destruct (decide (title r = k)) as [Hr|Hr].
    + rewrite (bool_decide_eq_true_2 _ Hr). simpl. rewrite orb_true_r.
      destruct (isGoogleApp r); simpl;
        (split; [done|]);
        destruct (googleHit k rs), (appleHit k rs); simpl; by rewrite ?Hr.
    + by rewrite (bool_decide_eq_false_2 _ Hr).
Qed.

Lemma flagFor_apps gs as_ k :
  flagFor (fold_left (foldStep title addByVariant) (gs ++ as_) []) k =
  if hasTitle k (gs ++ as_)
  then Some (truthy k && appleHit k (gs ++ as_) && googleHit k (gs ++ as_))
  else None.
Proof.
  rewrite flagFor_get, get_fold. simpl.
  destruct (fold_provenance k (gs ++ as_) None) as (H1 & H2 & H3).
  simpl in H1, H2, H3.
  destruct (fold_left _ _ _) as [c|] eqn:HF; simpl in *.
  - rewrite <- H1, H2, H3. f_equal.
    by destruct (appleHit k (gs ++ as_)), (googleHit k (gs ++ as_)),
      (truthy k) eqn:Hk; simpl; rewrite ?Hk.
  - by rewrite <- H1.
Qed.

(** C5.  Both orders of the two arrays run to the end, and for every title
    the exported flag is the same in both results (also absent in both when
    no record carries the title). *)
Theorem bothAppStores_commutes (A B : list App) :
  ∃ m1 m2, apps A B = Some m1 ∧ apps B A = Some m2
    ∧ ∀ k, flagFor m1 k = flagFor m2 k.
Proof.
  do 2 eexists. split; [apply apps_fold|]. split; [apply apps_fold|].
  intros k. rewrite !flagFor_apps. unfold hasTitle, appleHit, googleHit.
  rewrite !existsb_app.
  rewrite (orb_comm (existsb (λ app, bool_decide (title app = k)) B)).
  rewrite (orb_comm (existsb (λ app, bool_decide (title app = k) && isGoogleApp app) B)).
  by rewrite (orb_comm
    (existsb (λ app, bool_decide (title app = k) && negb (isGoogleApp app)) B)).
Qed.

(** The flag of a row, spelled out: both markers are non-empty strings. *)
Lemma bothAppStores_spec (c : CombinedApp) :
  bothAppStores (withBothAppStores c) = true ↔
  ∃ g a, titleGoogle c = Some g ∧ titleApple c = Some a ∧ g ≠ "" ∧ a ≠ "".
Proof.
  unfold withBothAppStores. simpl. rewrite truthy_jsAnd, andb_true_iff.
  unfold truthy. destruct (titleGoogle c) as [g|], (titleApple c) as [a|];
    rewrite ?negb_true_iff, ?bool_decide_eq_false; split;
    try (intros [? ?]; discriminate); try (intros (? & ? & ? & ? & ?); discriminate).
  - intros [Ha Hg]. by exists g, a.
  - intros (g' & a' & [= <-] & [= <-] & Hg & Ha). done.
Qed.

(** C2, on the input that breaks it: one Google record and one Apple record,
    both with the empty string as title.  The single combined record has both
    provenance markers present, each the empty string, and is exported
    with the flag false. *)
Theorem bothAppStores_false_on_empty_title :
  ∃ m row,
    apps [mkApp (Some "") (Some "x") (Some "s") None []]
         [mkApp (Some "") (Some "x") None (Some "d") []] = Some m
    ∧ appsAsArray m = [row]
    ∧ titleGoogle (app_fields row) = Some ""
    ∧ titleApple (app_fields row) = Some ""
    ∧ bothAppStores row = false.
Proof. do 2 eexists. split; [reflexivity|]. by repeat split. Qed.

(** ** Records without a title *)

(** C6 as stated fails: a record without a title and a record with the empty
    title are kept apart by both loops, whereas reading the missing title as
    the empty string would merge them. *)
Lemma missing_title_is_not_empty_title :
  apps missingAndEmpty [] ≠ apps (titleOrEmpty <$> missingAndEmpty) []
  ∧ JsMap.size <$> apps missingAndEmpty [] = Some 2
  ∧ JsMap.size <$> apps (titleOrEmpty <$> missingAndEmpty) [] = Some 1
  ∧ JsMap.size (filteredGoogleApps missingAndEmpty) = 2
  ∧ JsMap.size (filteredGoogleApps (titleOrEmpty <$> missingAndEmpty)) = 1.
Proof. split; [discriminate | by repeat split]. Qed.

Lemma title_in_keys_filteredGoogleApps rs r :
  r ∈ rs → title r ∈ JsMap.keys (filteredGoogleApps rs).
Proof.
  intros Hr. rewrite keys_filteredGoogleApps.
  apply elem_of_firstOccurrences, list_elem_of_fmap. by exists r.
Qed.

Lemma title_in_keys_filteredAppleApps rs r :
  r ∈ rs → title r ∈ JsMap.keys (filteredAppleApps rs).
Proof.
  intros Hr. rewrite keys_filteredAppleApps.
  apply elem_of_firstOccurrences, list_elem_of_fmap. by exists r.
Qed.

(** C6, amended.  The three loops never fail and drop no record: every
    record, with or without a title, has exactly one entry under its title in
    the filtered map of its store and in the merged mapping.  The records
    without a title share the entry of the key [undefined], and that entry is
    built from them alone: it is the one the merge would produce if the
    records with a title, the empty one included, were not there. *)
Theorem missing_title_own_identity (playStoreArray appStoreArray : list App) :
  ∃ m, apps playStoreArray appStoreArray = Some m
    ∧ (∀ r, r ∈ playStoreArray →
         length (filter (λ e, e.1 = title r) (filteredGoogleApps playStoreArray)) = 1)
    ∧ (∀ r, r ∈ appStoreArray →
         length (filter (λ e, e.1 = title r) (filteredAppleApps appStoreArray)) = 1)
    ∧ (∀ r, r ∈ playStoreArray ++ appStoreArray →
         length (filter (λ e, e.1 = title r) m) = 1)
    ∧ JsMap.get m None =
        (m' ← apps (filter (λ r, title r = None) playStoreArray)
                   (filter (λ r, title r = None) appStoreArray);
         JsMap.get m' None).
Proof.
  eexists. split; [apply apps_fold|]. repeat split.
  - intros r Hr. apply count_key_NoDup.
    + rewrite keys_filteredGoogleApps. apply NoDup_firstOccurrences.
    + by apply title_in_keys_filteredGoogleApps.
  - intros r Hr. apply count_key_NoDup.
    + rewrite keys_filteredAppleApps. apply NoDup_firstOccurrences.
    + by apply title_in_keys_filteredAppleApps.
  - intros r Hr. apply count_key_NoDup;
      [apply NoDup_keys_apps | by apply title_in_keys_apps].
  - rewrite apps_fold. simpl. rewrite !get_fold, <- filter_app.
    apply contribute_filter.
Qed.

Lemma missing_title_own_identity_witness :
  ∃ m, apps missingAndEmpty [] = Some m
    ∧ (∀ r, r ∈ missingAndEmpty →
         length (filter (λ e, e.1 = title r) (filteredGoogleApps missingAndEmpty)) = 1)
    ∧ (∀ r, r ∈ [] →
         length (filter (λ e, e.1 = title r) (filteredAppleApps [])) = 1)
    ∧ (∀ r, r ∈ missingAndEmpty ++ [] →
         length (filter (λ e, e.1 = title r) m) = 1)
    ∧ JsMap.get m None =
        (m' ← apps (filter (λ r, title r = None) missingAndEmpty)
                   (filter (λ r, title r = None) []);
         JsMap.get m' None).
Proof. apply (missing_title_own_identity missingAndEmpty []). Defined.

(** ** A failed retrieval *)

Lemma promiseAll_rejected {A} (ps : list (Settled A)) :
  Rejected ∈ ps → promiseAll ps = Rejected.
Proof.
  induction ps as [|p ps IH]; intros Hin.
  - by apply elem_of_nil in Hin.
  - simpl. destruct p as [x|]; [|done].
    apply elem_of_cons in Hin as [?|Hin]; [done|]. by rewrite IH.
Qed.

(** One rejected search for the Play Store is enough to end the run before
    anything is filtered, merged or saved. *)
Lemma main_aborts_on_rejection googleSearch appleSearch searchTerms term :
  term ∈ searchTerms → googleSearch term = Rejected →
  main googleSearch appleSearch searchTerms = None.
Proof.
  intros Hterm Hrej. unfold main, storeArray.
  rewrite (promiseAll_rejected (map (scrape googleSearch) searchTerms)); [done|].
  apply list_elem_of_fmap. exists term. split; [|done].
  unfold scrape. by rewrite Hrej.
Qed.

(** C7, on the input that breaks it: two search terms, the Play Store search
    succeeds for the first and is rejected for the second, the App Store
    search succeeds for both.  The run throws and nothing reaches
    [saveToCsv]; the same searches without the failing term export a row. *)
Theorem main_aborts_when_one_search_fails :
  main searchFailingOnChat searchOneApple ["maps"; "chat"] = None
  ∧ storeArray searchFailingOnChat ["maps"; "chat"] = None
  ∧ ∃ run, main searchFailingOnChat searchOneApple ["maps"] = Some run
           ∧ length (exported run) = 1.
Proof. split; [reflexivity|]. split; [reflexivity|]. by eexists. Qed.

(** ** Merging the filtered maps instead of the raw arrays *)

Lemma firstOccurrences_NoDup l : NoDup l → firstOccurrences l = l.
Proof.
  induction l as [|k l IH]; simpl; intros Hnd; [done|].
  apply NoDup_cons in Hnd as [Hk Hnd]. rewrite (IH Hnd). f_equal.
  clear IH Hnd. induction l as [|k' l IH]; [done|].
  apply not_elem_of_cons in Hk as [Hne Hk].
  rewrite filter_cons, decide_True by done. by rewrite (IH Hk).
Qed.

Lemma jmap_ext (m1 m2 : JMap) :
  JsMap.keys m1 = JsMap.keys m2 → NoDup (JsMap.keys m1) →
  (∀ k, JsMap.get m1 k = JsMap.get m2 k) → m1 = m2.
Proof.
  revert m2. induction m1 as [|[k1 c1] m1 IH]; intros [|[k2 c2] m2] Hkeys Hnd Hget;
    try discriminate Hkeys; [done|].
  simpl in Hkeys. injection Hkeys as -> Hkeys.
  apply NoDup_cons in Hnd as [Hk Hnd].
  pose proof (Hget k2) as H2. simpl in H2. rewrite !decide_True in H2 by done.
  injection H2 as ->. f_equal. apply IH; [done..|].
  intros k. destruct (decide (k2 = k)) as [<-|Hne].
  - assert (JsMap.has m1 k2 = false) as H1 by by apply has_false_keys.
    assert (JsMap.has m2 k2 = false) as H2
      by (apply has_false_keys; by rewrite <- Hkeys).
    apply get_None_has in H1, H2. congruence.
  - specialize (Hget k). simpl in Hget. by rewrite !decide_False in Hget.
Qed.

Lemma mergeEntry_upsert copy m entry :
  mergeEntry copy m entry = foldStep fst (λ e x, copy e x.2) m entry.
Proof.
  unfold mergeEntry, foldStep. cbv zeta.
  rewrite (find_or_create_get newCombinedApp m entry.1).
  apply (find_or_create_update newCombinedApp (λ e, copy e entry.2)).
Qed.

Lemma fold_mergeEntry copy l m :
  fold_left (mergeEntry copy) l m =
  fold_left (foldStep fst (λ e x, copy e x.2)) l m.
Proof.
  revert m. induction l as [|e l IH]; intros m; simpl; [done|].
  by rewrite mergeEntry_upsert, IH.
Qed.

(** Folding the entries of a map with distinct keys touches the entry of
    [k] once, with what the map holds under [k]. *)
Lemma contribute_entries copy k (l : JMap) o :
  NoDup (JsMap.keys l) →
  fold_left (contribute fst (λ e x, copy e x.2) k) l o =
  match JsMap.get l k with
  | Some c => Some (copy (default newCombinedApp o) c)
  | None => o
  end.
Proof.
  revert o. induction l as [|[k0 c0] l IH]; intros o Hnd; simpl; [done|].
  apply NoDup_cons in Hnd as [Hk0 Hnd]. unfold contribute at 2. simpl.
  destruct (decide (k0 = k)) as [->|Hne].
  - apply contribute_other, Forall_forall. intros [k1 c1] Hin Heq.
    simpl in Heq. subst k1. apply Hk0, list_elem_of_fmap. by exists (k, c1).
  - by apply IH.
Qed.

Lemma contribute_ext {R} (key : R → jsval) add1 add2 k rs o :
  Forall (λ r, ∀ e, add1 e r = add2 e r) rs →
  fold_left (contribute key add1 k) rs o = fold_left (contribute key add2 k) rs o.
Proof.
  revert o. induction rs as [|r rs IH]; intros o Hrs; simpl; [done|].
  apply Forall_cons in Hrs as [Hr Hrs]. rewrite (IH _ Hrs). f_equal.
  unfold contribute. by rewrite Hr.
Qed.

Lemma get_apps_typed gs as_ k :
  Forall (λ app, isGoogleApp app = true) gs →
  Forall (λ app, isGoogleApp app = false) as_ →
  JsMap.get (fold_left (foldStep title addByVariant) (gs ++ as_) []) k =
  match lastTitled k as_ with
  | Some ra =>
      Some (addAppleAppData
              (default newCombinedApp (JsMap.get (filteredGoogleApps gs) k)) ra)
  | None => JsMap.get (filteredGoogleApps gs) k
  end.
Proof.
  intros Hg Ha. rewrite get_fold, fold_left_app. simpl.
  rewrite (contribute_ext title addByVariant addGoogleAppData k gs).
  2:{ eapply Forall_impl; [exact Hg|]. intros r Hr e. unfold addByVariant.
      by rewrite Hr. }
  rewrite (contribute_ext title addByVariant addAppleAppData k as_).
  2:{ eapply Forall_impl; [exact Ha|]. intros r Hr e. unfold addByVariant.
      by rewrite Hr. }
  rewrite fold_last_apple, fold_last_google, get_filteredGoogleApps.
  by destruct (lastTitled k gs).
Qed.

Lemma NoDup_keys_filteredGoogleApps rs : NoDup (JsMap.keys (filteredGoogleApps rs)).
Proof. rewrite keys_filteredGoogleApps. apply NoDup_firstOccurrences. Qed.

Lemma NoDup_keys_filteredAppleApps rs : NoDup (JsMap.keys (filteredAppleApps rs)).
Proof. rewrite keys_filteredAppleApps. apply NoDup_firstOccurrences. Qed.

Lemma get_mergeDeduplicated gs as_ k :
  JsMap.get (mergeDeduplicated (filteredGoogleApps gs) (filteredAppleApps as_)) k =
  match lastTitled k as_ with
  | Some ra =>
      Some (addAppleAppData
              (default newCombinedApp (JsMap.get (filteredGoogleApps gs) k)) ra)
  | None => JsMap.get (filteredGoogleApps gs) k
  end.
Proof.
  unfold mergeDeduplicated. rewrite !fold_mergeEntry, !get_fold.
  rewrite (contribute_entries copyAppleSide)
    by apply NoDup_keys_filteredAppleApps.
  rewrite (contribute_entries copyGoogleSide)
    by apply NoDup_keys_filteredGoogleApps.
  simpl. rewrite get_filteredAppleApps, get_filteredGoogleApps.
  by destruct (lastTitled k as_), (lastTitled k gs).
Qed.

Lemma keys_mergeDeduplicated gs as_ :
  JsMap.keys (mergeDeduplicated (filteredGoogleApps gs) (filteredAppleApps as_)) =
  firstOccurrences (title <$> gs ++ as_).
Proof.
  unfold mergeDeduplicated. rewrite !fold_mergeEntry, !keys_fold. simpl.
  rewrite filter_not_in_nil.
  change (fst <$> filteredGoogleApps gs) with (JsMap.keys (filteredGoogleApps gs)).
  change (fst <$> filteredAppleApps as_) with (JsMap.keys (filteredAppleApps as_)).
  rewrite keys_filteredGoogleApps, keys_filteredAppleApps.
  rewrite !(firstOccurrences_NoDup (firstOccurrences _))
    by apply NoDup_firstOccurrences.
  by rewrite fmap_app, firstOccurrences_app.
Qed.

(** C8.  When the Play Store array holds Google records and the App Store
    array holds Apple records, the mapping built by the merge loop from the
    two raw arrays is the one obtained by merging the two filtered maps:
    same combined records, in the same order.  The merge loop itself reads
    only the two raw arrays. *)
Theorem merge_raw_equals_merge_filtered (playStoreArray appStoreArray : list App) :
  Forall (λ app, isGoogleApp app = true) playStoreArray →
  Forall (λ app, isGoogleApp app = false) appStoreArray →
  apps playStoreArray appStoreArray =
  Some (mergeDeduplicated (filteredGoogleApps playStoreArray)
                          (filteredAppleApps appStoreArray)).
Proof.
  intros Hg Ha. rewrite apps_fold. f_equal. apply jmap_ext.
  - rewrite keys_mergeDeduplicated, keys_fold. simpl. apply filter_not_in_nil.
  - apply NoDup_keys_apps.
  - intros k. by rewrite get_apps_typed, get_mergeDeduplicated.
Qed.

Lemma merge_raw_equals_merge_filtered_witness :
  apps fooBarFoo barBaz =
  Some (mergeDeduplicated (filteredGoogleApps fooBarFoo) (filteredAppleApps barBaz)).
Proof.
  apply (merge_raw_equals_merge_filtered fooBarFoo barBaz); repeat constructor.
Defined.

(** Outside the declared element types the two ways part: a record of the
    Play Store array without a [summary] is taken for an Apple record by the
    merge loop and for a Google record by the Google filter. *)
Example merge_raw_differs_without_summary :
  apps [mkApp (Some "Foo") None None None []] [] ≠
  Some (mergeDeduplicated
          (filteredGoogleApps [mkApp (Some "Foo") None None None []])
          (filteredAppleApps [])).
Proof. discriminate. Qed.

(** * Further properties of the script *)

(** ** The two log lines of step 2 *)

Lemma length_firstOccurrences_le l :
  (length (firstOccurrences l) ≤ length l)%nat.
Proof.
  induction l as [|k l IH]; simpl; [done|].
  pose proof (length_filter (λ k', k' ≠ k) (firstOccurrences l)). lia.
Qed.

Lemma length_filter_all {A} (P : A → Prop) `{!∀ x, Decision (P x)} (l : list A) :
  length (filter P l) = length l → Forall P l.
Proof.
  induction l as [|x l IH]; [constructor|].
  rewrite filter_cons. pose proof (length_filter P l).
  destruct (decide (P x)); simpl; intros Hlen; [|lia].
  constructor; [done|]. apply IH. lia.
Qed.

Lemma length_firstOccurrences_NoDup l :
  length (firstOccurrences l) = length l ↔ NoDup l.
Proof.
  split; [|intros Hnd; by rewrite firstOccurrences_NoDup].
  induction l as [|k l IH]; simpl; intros Hlen; [constructor|].
  pose proof (length_filter (λ k', k' ≠ k) (firstOccurrences l)).
  pose proof (length_firstOccurrences_le l).
  constructor.
  - intros Hk. apply elem_of_firstOccurrences in Hk.
    assert (Forall (λ k', k' ≠ k) (firstOccurrences l)) as Hall
      by (apply (length_filter_all (λ k', k' ≠ k)); lia).
    rewrite Forall_forall in Hall. by apply (Hall k).
  - apply IH. lia.
Qed.

Lemma size_filteredGoogleApps array :
  JsMap.size (filteredGoogleApps array) = length (firstOccurrences (title <$> array)).
Proof.
  unfold JsMap.size. rewrite <- keys_filteredGoogleApps.
  unfold JsMap.keys. by rewrite length_map.
Qed.

Lemma size_filteredAppleApps array :
  JsMap.size (filteredAppleApps array) = length (firstOccurrences (title <$> array)).
Proof.
  unfold JsMap.size. rewrite <- keys_filteredAppleApps.
  unfold JsMap.keys. by rewrite length_map.
Qed.

(** X1.  In both log lines the two numbers add up to the length of the
    array: a filtered map is never larger than its array, so the difference
    [array.length - filtered.size] is the count of the records that found
    their title already in the map. *)
Theorem removed_plus_remaining (array : list App) :
  removedDuplicates array (filteredGoogleApps array)
    + JsMap.size (filteredGoogleApps array) = length array
  ∧ removedDuplicates array (filteredAppleApps array)
    + JsMap.size (filteredAppleApps array) = length array.
Proof.
  unfold removedDuplicates.
  rewrite size_filteredGoogleApps, size_filteredAppleApps.
  pose proof (length_firstOccurrences_le (title <$> array)) as Hle.
  rewrite length_fmap in Hle. lia.
Qed.

(** X2.  A store is logged with 0 removed duplicates exactly when the titles
    of its array are pairwise different. *)
Theorem no_duplicates_removed_iff (array : list App) :
  (removedDuplicates array (filteredGoogleApps array) = 0 ↔ NoDup (title <$> array))
  ∧ (removedDuplicates array (filteredAppleApps array) = 0 ↔ NoDup (title <$> array)).
Proof.
  unfold removedDuplicates.
  rewrite size_filteredGoogleApps, size_filteredAppleApps.
  pose proof (length_firstOccurrences_le (title <$> array)) as Hle.
  pose proof (length_firstOccurrences_NoDup (title <$> array)) as Hnd.
  rewrite length_fmap in Hle, Hnd. split; (rewrite <- Hnd; lia).
Qed.

(** ** What the merge loop stores under a title *)

Lemma hasTitle_snoc k rs x :
  hasTitle k (rs ++ [x]) = hasTitle k rs || bool_decide (title x = k).
Proof. unfold hasTitle. rewrite existsb_app. simpl. by rewrite orb_false_r. Qed.

Lemma filter_snoc {A} (P : A → Prop) `{!∀ x, Decision (P x)} (l : list A) x :
  filter P (l ++ [x]) = if decide (P x) then filter P l ++ [x] else filter P l.
Proof.
  rewrite filter_app, filter_cons, filter_nil.
  destruct (decide (P x)); [done | by rewrite app_nil_r].
Qed.

Lemma lastGoogleTitled_snoc k rs x :
  lastGoogleTitled k (rs ++ [x]) =
  if decide (title x = k ∧ isGoogleApp x = true) then Some x
  else lastGoogleTitled k rs.
Proof.
  unfold lastGoogleTitled. rewrite filter_snoc.
  destruct (decide (isGoogleApp x = true)) as [Hx|Hx].
  - rewrite lastTitled_snoc. destruct (decide (title x = k)) as [Hk|Hk].
    + by rewrite decide_True.
    + rewrite decide_False; [done | tauto].
  - rewrite decide_False; [done | tauto].
Qed.

Lemma lastAppleTitled_snoc k rs x :
  lastAppleTitled k (rs ++ [x]) =
  if decide (title x = k ∧ isGoogleApp x = false) then Some x
  else lastAppleTitled k rs.
Proof.
  unfold lastAppleTitled. rewrite filter_snoc.
  destruct (decide (isGoogleApp x = false)) as [Hx|Hx].
  - rewrite lastTitled_snoc. destruct (decide (title x = k)) as [Hk|Hk].
    + by rewrite decide_True.
    + rewrite decide_False; [done | tauto].
  - rewrite decide_False; [done | tauto].
Qed.

Lemma hasTitle_false_lastTitled k rs (P : App → Prop) `{!∀ x, Decision (P x)} :
  hasTitle k rs = false → lastTitled k (filter P rs) = None.
Proof.
  induction rs as [|x rs IH] using rev_ind; [done|].
  rewrite hasTitle_snoc, orb_false_iff, bool_decide_eq_false. intros [Hrs Hx].
  rewrite filter_snoc. destruct (decide (P x)); [|by apply IH].
  rewrite lastTitled_snoc, decide_False by done. by apply IH.
Qed.

(** The entry of title [k] after the merge loop has run over [rs]. *)
Lemma fold_merged k rs :
  fold_left (contribute title addByVariant k) rs None =
  if hasTitle k rs
  then Some (combinedOf (lastGoogleTitled k rs) (lastAppleTitled k rs))
  else None.
Proof.
  induction rs as [|x rs IH] using rev_ind; [done|].
  rewrite fold_left_app. simpl. rewrite IH. clear IH.
  rewrite hasTitle_snoc, lastGoogleTitled_snoc, lastAppleTitled_snoc.
  unfold contribute. destruct (decide (title x = k)) as [Hk|Hk].
  - rewrite (bool_decide_eq_true_2 _ Hk), orb_true_r.
    unfold addByVariant. destruct (isGoogleApp x) eqn:Hx.
    + rewrite decide_True by done. rewrite decide_False by (intros [_ ?]; done).
      f_equal. destruct (hasTitle k rs) eqn:Hrs; simpl; [done|].
      unfold lastAppleTitled. by rewrite hasTitle_false_lastTitled.
    + rewrite decide_False by (intros [_ ?]; done). rewrite decide_True by done.
      f_equal. destruct (hasTitle k rs) eqn:Hrs; simpl; [done|].
      unfold lastGoogleTitled. by rewrite hasTitle_false_lastTitled.
  - rewrite (bool_decide_eq_false_2 _ Hk), orb_false_r.
    rewrite !decide_False by (intros [? _]; done). done.
Qed.

(** X3.  The merge loop ends without throwing, and under every title [k]
    that occurs in [[...playStoreArray, ...appStoreArray]] it leaves the
    Google fields of the last record titled [k] that has a [summary] and the
    Apple fields of the last record titled [k] that has none, wherever in the
    two arrays those records stand; a side without such a record stays
    absent, and a title that does not occur has no entry. *)
Theorem apps_entry (playStoreArray appStoreArray : list App) :
  ∃ m, apps playStoreArray appStoreArray = Some m
    ∧ ∀ k, JsMap.get m k =
        if hasTitle k (playStoreArray ++ appStoreArray)
        then Some (combinedOf
                     (lastGoogleTitled k (playStoreArray ++ appStoreArray))
                     (lastAppleTitled k (playStoreArray ++ appStoreArray)))
        else None.
Proof.
  eexists. split; [apply apps_fold|]. intros k.
  rewrite get_fold. apply fold_merged.
Qed.

(** X4.  A title is exported with [bothAppStores] true exactly when it is a
    non-empty string and the two arrays together hold a record of that title
    with a [summary] and one without; which of the two arrays a record comes
    from plays no part. *)
Theorem bothAppStores_true_iff (playStoreArray appStoreArray : list App) :
  ∃ m, apps playStoreArray appStoreArray = Some m
    ∧ ∀ k, flagFor m k = Some true ↔
           truthy k = true
           ∧ googleHit k (playStoreArray ++ appStoreArray) = true
           ∧ appleHit k (playStoreArray ++ appStoreArray) = true.
Proof.
  eexists. split; [apply apps_fold|]. intros k. rewrite flagFor_apps.
  destruct (hasTitle k (playStoreArray ++ appStoreArray)) eqn:Hk.
  - destruct (truthy k), (appleHit k _), (googleHit k _); simpl;
      split; (try by intros [= ?]); (try by intros (? & ? & ?)); done.
  - split; [done|]. intros (_ & Hg & _). exfalso.
    unfold googleHit, hasTitle in *.
    apply existsb_exists in Hg as (r & Hr & Hg).
    apply andb_true_iff in Hg as [Hg _].
    assert (existsb (λ app, bool_decide (title app = k))
              (playStoreArray ++ appStoreArray) = true) as Habs
      by (apply existsb_exists; eauto).
    congruence.
Qed.

Lemma elem_of_get {V} (m : list (jsval * V)) k v :
  NoDup (JsMap.keys m) → (k, v) ∈ m ↔ JsMap.get m k = Some v.
Proof.
  induction m as [|[k0 v0] m IH]; simpl; intros Hnd.
  - split; [by intros ?%elem_of_nil | done].
  - apply NoDup_cons in Hnd as [Hk0 Hnd]. rewrite elem_of_cons, (IH Hnd).
    destruct (decide (k0 = k)) as [->|Hne].
    + split; [|intros [= ->]; by left].
      intros [[= ->]|Hget]; [done|]. exfalso. apply Hk0, has_keys, get_Some_has.
      by eexists.
    + split; [|by right]. intros [[= ? ?]|?]; [congruence | done].
Qed.

(** X5.  In the merged mapping a provenance marker that is present repeats
    the title the record is filed under; so when both markers of a row are
    present they are the same string. *)
Theorem markers_repeat_the_title (playStoreArray appStoreArray : list App) :
  ∃ m, apps playStoreArray appStoreArray = Some m
    ∧ Forall (λ e, (titleGoogle e.2 = None ∨ titleGoogle e.2 = e.1)
                 ∧ (titleApple e.2 = None ∨ titleApple e.2 = e.1)) m.
Proof.
  eexists. split; [apply apps_fold|]. apply Forall_forall. intros [k c] Hin.
  apply elem_of_get in Hin; [|apply NoDup_keys_apps].
  rewrite get_fold in Hin. simpl in Hin. rewrite fold_merged in Hin.
  destruct (hasTitle k _); [|done]. injection Hin as <-. simpl. split.
  - destruct (lastGoogleTitled k _) as [g|] eqn:Hg; simpl; [|by left].
    right. by apply lastTitled_title in Hg.
  - destruct (lastAppleTitled k _) as [a|] eqn:Ha; simpl; [|by left].
    right. by apply lastTitled_title in Ha.
Qed.

(** ** Retrieval *)

Lemma promiseAll_Rejected_iff {A} (ps : list (Settled A)) :
  promiseAll ps = Rejected ↔ Rejected ∈ ps.
Proof.
  split; [|apply promiseAll_rejected].
  induction ps as [|[x|] ps IH]; simpl; [done| |].
  - destruct (promiseAll ps); [done|]. intros _. apply elem_of_cons. right.
    by apply IH.
  - intros _. apply elem_of_cons. by left.
Qed.

Lemma storeArray_None_iff search searchTerms :
  storeArray search searchTerms = None ↔
  ∃ term, term ∈ searchTerms ∧ search term = Rejected.
Proof.
  unfold storeArray.
  destruct (promiseAll (map (scrape search) searchTerms)) as [arrays|] eqn:Hall.
  - split; [done|]. intros (term & Hterm & Hrej).
    assert (promiseAll (map (scrape search) searchTerms) = Rejected) as Habs.
    { apply promiseAll_rejected, list_elem_of_fmap. exists term.
      split; [|done]. unfold scrape. by rewrite Hrej. }
    congruence.
  - split; [|done]. intros _.
    apply promiseAll_Rejected_iff, list_elem_of_fmap in Hall as (term & Hscr & Hterm).
    exists term. split; [done|]. unfold scrape in Hscr.
    by destruct (search term).
Qed.

(** X6.  A run ends before [saveToCsv] exactly when the search of one of the
    two stores is rejected for one of the search terms; when every search is
    fulfilled the run always reaches the export. *)
Theorem main_aborts_iff (googleSearch appleSearch : string → Settled (list App))
  (searchTerms : list string) :
  main googleSearch appleSearch searchTerms = None ↔
  ∃ term, term ∈ searchTerms
          ∧ (googleSearch term = Rejected ∨ appleSearch term = Rejected).
Proof.
  unfold main.
  destruct (storeArray googleSearch searchTerms) as [gs|] eqn:Hg; simpl.
  - destruct (storeArray appleSearch searchTerms) as [as_|] eqn:Ha; simpl.
    + rewrite apps_fold. simpl. split; [done|].
      intros (term & Hterm & [Hrej|Hrej]).
      * assert (storeArray googleSearch searchTerms = None)
          by (apply storeArray_None_iff; eauto). congruence.
      * assert (storeArray appleSearch searchTerms = None)
          by (apply storeArray_None_iff; eauto). congruence.
    + split; [|done]. intros _.
      apply storeArray_None_iff in Ha as (term & ? & ?). eauto.
  - split; [|done]. intros _.
    apply storeArray_None_iff in Hg as (term & ? & ?). eauto.
Qed.




(** ** The order of the two arrays *)

Lemma filter_Forall_all {A} (P : A → Prop) `{!∀ x, Decision (P x)} (l : list A) :
  Forall P l → filter P l = l.
Proof.
  induction 1 as [|x l Hx Hl IH]; [done|].
  rewrite filter_cons, decide_True by done. by rewrite IH.
Qed.

Lemma filter_Forall_none {A} (P : A → Prop) `{!∀ x, Decision (P x)} (l : list A) :
  Forall (λ x, ¬ P x) l → filter P l = [].
Proof.
  induction 1 as [|x l Hx Hl IH]; [done|].
  by rewrite filter_cons, decide_False.
Qed.

Lemma Forall_apple_not_google (l : list App) :
  Forall (λ app, isGoogleApp app = false) l →
  Forall (λ app, ¬ isGoogleApp app = true) l.
Proof. intros Hl. eapply Forall_impl; [exact Hl|]. by intros app ->. Qed.

Lemma Forall_google_not_apple (l : list App) :
  Forall (λ app, isGoogleApp app = true) l →
  Forall (λ app, ¬ isGoogleApp app = false) l.
Proof. intros Hl. eapply Forall_impl; [exact Hl|]. by intros app ->. Qed.

(** With Google records in one array and Apple records in the other, the
    last record of each kind is found in its own array. *)
Lemma lastTitled_typed k (A B : list App) :
  Forall (λ app, isGoogleApp app = true) A →
  Forall (λ app, isGoogleApp app = false) B →
  lastGoogleTitled k (A ++ B) = lastTitled k A
  ∧ lastGoogleTitled k (B ++ A) = lastTitled k A
  ∧ lastAppleTitled k (A ++ B) = lastTitled k B
  ∧ lastAppleTitled k (B ++ A) = lastTitled k B.
Proof.
  intros HA HB. unfold lastGoogleTitled, lastAppleTitled. rewrite !filter_app.
  rewrite (filter_Forall_all _ A HA).
  rewrite (filter_Forall_all _ B HB).
  rewrite (filter_Forall_none _ B (Forall_apple_not_google B HB)).
  rewrite (filter_Forall_none _ A (Forall_google_not_apple A HA)).
  by rewrite !app_nil_r.
Qed.

Lemma hasTitle_app_comm k (A B : list App) :
  hasTitle k (A ++ B) = hasTitle k (B ++ A).
Proof. unfold hasTitle. rewrite !existsb_app. apply orb_comm. Qed.

Lemma NoDup_keys_entries {V} (m : list (jsval * V)) :
  NoDup (JsMap.keys m) → NoDup m.
Proof. apply NoDup_fmap_1. Qed.

Lemma jmap_Permutation (m1 m2 : JMap) :
  NoDup (JsMap.keys m1) → NoDup (JsMap.keys m2) →
  (∀ k, JsMap.get m1 k = JsMap.get m2 k) → m1 ≡ₚ m2.
Proof.
  intros H1 H2 Hget. apply NoDup_Permutation.
  - by apply NoDup_keys_entries.
  - by apply NoDup_keys_entries.
  - intros [k c]. by rewrite !elem_of_get, Hget.
Qed.

(** X8.  With Google records in the Play Store array and Apple records in the
    App Store array, running the merge loop over the App Store array first
    would export the same rows; only their order can differ. *)
Theorem rows_permuted_by_swap (playStoreArray appStoreArray : list App) :
  Forall (λ app, isGoogleApp app = true) playStoreArray →
  Forall (λ app, isGoogleApp app = false) appStoreArray →
  ∃ m1 m2, apps playStoreArray appStoreArray = Some m1
    ∧ apps appStoreArray playStoreArray = Some m2
    ∧ appsAsArray m1 ≡ₚ appsAsArray m2.
Proof.
  intros HA HB. do 2 eexists. split; [apply apps_fold|]. split; [apply apps_fold|].
  unfold appsAsArray, JsMap.values. do 2 apply fmap_Permutation.
  apply jmap_Permutation; [apply NoDup_keys_apps..|].
  intros k. rewrite !get_fold. simpl. rewrite !fold_merged.
  destruct (lastTitled_typed k playStoreArray appStoreArray HA HB)
    as (-> & -> & -> & ->).
  by rewrite hasTitle_app_comm.
Qed.

Lemma rows_permuted_by_swap_witness :
  ∃ m1 m2, apps fooBarFoo barBaz = Some m1
    ∧ apps barBaz fooBarFoo = Some m2
    ∧ appsAsArray m1 ≡ₚ appsAsArray m2.
Proof. apply (rows_permuted_by_swap fooBarFoo barBaz); repeat constructor. Defined.

(** ** How the logged numbers fit together *)

Lemma length_filter_fmap {A B} (f : A → B) (P : B → Prop)
  `{!∀ y, Decision (P y)} (l : list A) :
  length (filter P (f <$> l)) = length (filter (λ x, P (f x)) l).
Proof.
  induction l as [|x l IH]; [done|].
  rewrite fmap_cons, !filter_cons. destruct (decide (P (f x))); simpl; by rewrite IH.
Qed.

Lemma filter_ext_in {A} (P Q : A → Prop) `{!∀ x, Decision (P x)}
  `{!∀ x, Decision (Q x)} (l : list A) :
  (∀ x, x ∈ l → P x ↔ Q x) → filter P l = filter Q l.
Proof.
  induction l as [|x l IH]; intros HPQ; [done|].
  rewrite !filter_cons, IH by (intros y Hy; apply HPQ, elem_of_cons; by right).
  pose proof (HPQ x (proj2 (elem_of_cons _ _ _) (or_introl eq_refl))) as Hx.
  destruct (decide (P x)), (decide (Q x)); tauto.
Qed.

Lemma length_filter_split {A} (P : A → Prop) `{!∀ x, Decision (P x)} (l : list A) :
  length (filter P l) + length (filter (λ x, ¬ P x) l) = length l.
Proof.
  induction l as [|x l IH]; [done|].
  rewrite !filter_cons. destruct (decide (P x)), (decide (¬ P x)); simpl; try tauto; lia.
Qed.

Lemma length_common (K1 K2 : list jsval) :
  NoDup K1 → NoDup K2 →
  length (filter (λ k, k ∈ K2) K1) = length (filter (λ k, k ∈ K1) K2).
Proof.
  intros H1 H2. apply Permutation_length, NoDup_Permutation.
  - by apply NoDup_filter.
  - by apply NoDup_filter.
  - intros k. rewrite !list_elem_of_filter. tauto.
Qed.

Lemma hasTitle_elem k (l : list App) : hasTitle k l = true ↔ k ∈ title <$> l.
Proof.
  unfold hasTitle. rewrite existsb_exists, list_elem_of_fmap. split.
  - intros (r & Hr & Hk). apply bool_decide_eq_true in Hk.
    exists r. split; [done|]. by apply list_elem_of_In.
  - intros (r & Hk & Hr). exists r. split; [by apply list_elem_of_In|].
    by apply bool_decide_eq_true.
Qed.

Lemma hits_google k (l : list App) :
  Forall (λ app, isGoogleApp app = true) l →
  googleHit k l = hasTitle k l ∧ appleHit k l = false.
Proof.
  unfold googleHit, appleHit, hasTitle.
  induction 1 as [|r l Hr Hl [IH1 IH2]]; [done|]. simpl.
  rewrite IH1, IH2, Hr. simpl. by rewrite andb_true_r, andb_false_r.
Qed.

Lemma hits_apple k (l : list App) :
  Forall (λ app, isGoogleApp app = false) l →
  appleHit k l = hasTitle k l ∧ googleHit k l = false.
Proof.
  unfold googleHit, appleHit, hasTitle.
  induction 1 as [|r l Hr Hl [IH1 IH2]]; [done|]. simpl.
  rewrite IH1, IH2, Hr. simpl. by rewrite andb_true_r, andb_false_r.
Qed.

Lemma flag_of_entry_typed (A B : list App) k c :
  Forall (λ app, isGoogleApp app = true) A →
  Forall (λ app, isGoogleApp app = false) B →
  Forall (λ app, truthy (title app) = true) (A ++ B) →
  (k, c) ∈ fold_left (foldStep title addByVariant) (A ++ B) [] →
  bothAppStores (withBothAppStores c) = true ↔
  k ∈ firstOccurrences (title <$> A) ∧ k ∈ firstOccurrences (title <$> B).
Proof.
  intros HA HB Htruthy Hin.
  apply elem_of_get in Hin; [|apply NoDup_keys_apps].
  pose proof (flagFor_apps A B k) as Hflag.
  unfold flagFor in Hflag. rewrite rowFor_get, Hin in Hflag. simpl in Hflag.
  destruct (hasTitle k (A ++ B)) eqn:Hk; [|done].
  injection Hflag as Hflag. simpl. rewrite Hflag.
  assert (truthy k = true) as ->.
  { apply hasTitle_elem, list_elem_of_fmap in Hk as (r & -> & Hr).
    rewrite Forall_forall in Htruthy. by apply Htruthy. }
  unfold googleHit, appleHit. rewrite !existsb_app.
  fold (googleHit k A) (googleHit k B) (appleHit k A) (appleHit k B).
  destruct (hits_google k A HA) as [-> ->].
  destruct (hits_apple k B HB) as [-> ->].
  rewrite !elem_of_firstOccurrences, <- !hasTitle_elem. simpl.
  rewrite orb_false_r, andb_true_iff. tauto.
Qed.

(** X9.  With Google records in the Play Store array, Apple records in the
    App Store array and no empty or missing title, the numbers of a run fit
    together: the rows exported plus the rows flagged [bothAppStores] are
    the apps remaining for Google plus the apps remaining for Apple. *)
Theorem rows_plus_flagged (playStoreArray appStoreArray : list App) :
  Forall (λ app, isGoogleApp app = true) playStoreArray →
  Forall (λ app, isGoogleApp app = false) appStoreArray →
  Forall (λ app, truthy (title app) = true) (playStoreArray ++ appStoreArray) →
  ∃ m, apps playStoreArray appStoreArray = Some m
    ∧ length (appsAsArray m)
      + length (filter (λ row, bothAppStores row = true) (appsAsArray m))
      = JsMap.size (filteredGoogleApps playStoreArray)
        + JsMap.size (filteredAppleApps appStoreArray).
Proof.
  intros HA HB Htruthy. eexists. split; [apply apps_fold|].
  set (m := fold_left (foldStep title addByVariant) (playStoreArray ++ appStoreArray) []).
  set (K1 := firstOccurrences (title <$> playStoreArray)).
  set (K2 := firstOccurrences (title <$> appStoreArray)).
  assert (JsMap.keys m = K1 ++ filter (λ k, k ∉ K1) K2) as Hkeys.
  { unfold m. rewrite keys_fold. simpl.
    by rewrite filter_not_in_nil, fmap_app, firstOccurrences_app. }
  rewrite size_filteredGoogleApps, size_filteredAppleApps. fold K1 K2.
  unfold appsAsArray, JsMap.values.
  rewrite !length_fmap, (length_filter_fmap withBothAppStores),
    (length_filter_fmap snd).
  rewrite (filter_ext_in _ (λ e, e.1 ∈ K1 ∧ e.1 ∈ K2) m).
  2:{ intros [k c] Hin. simpl.
      by apply (flag_of_entry_typed playStoreArray appStoreArray). }
  assert (length (filter (λ e, e.1 ∈ K1 ∧ e.1 ∈ K2) m)
          = length (filter (λ k, k ∈ K1 ∧ k ∈ K2) (JsMap.keys m))) as ->
    by (symmetry; exact (length_filter_fmap fst (λ k, k ∈ K1 ∧ k ∈ K2) m)).
  replace (length m) with (length (JsMap.keys m))
    by (unfold JsMap.keys; apply length_map).
  rewrite Hkeys, filter_app, !length_app.
  rewrite (filter_ext_in (λ k, k ∈ K1 ∧ k ∈ K2) (λ k, k ∈ K2) K1) by tauto.
  rewrite (filter_Forall_none (λ k, k ∈ K1 ∧ k ∈ K2) (filter (λ k, k ∉ K1) K2)).
  2:{ apply Forall_forall. intros k Hk. apply list_elem_of_filter in Hk. tauto. }
  pose proof (length_filter_split (λ k, k ∈ K1) K2) as Hsplit.
  pose proof (length_common K1 K2 (NoDup_firstOccurrences _)
                (NoDup_firstOccurrences _)) as Hcommon.
  simpl. lia.
Qed.

Lemma rows_plus_flagged_witness :
  ∃ m, apps fooBarFoo barBaz = Some m
    ∧ length (appsAsArray m)
      + length (filter (λ row, bothAppStores row = true) (appsAsArray m))
      = JsMap.size (filteredGoogleApps fooBarFoo)
        + JsMap.size (filteredAppleApps barBaz).
Proof. apply (rows_plus_flagged fooBarFoo barBaz); repeat constructor. Defined.

(** ** Splitting a string *)

Section Split.
Variable matchAt : jsstring → option jsstring.
Hypothesis matchAt_shorter :
  ∀ s rest, matchAt s = Some rest → length rest < length s.

Lemma splitLoop_fuel fuel1 fuel2 s :
  length s < fuel1 → length s < fuel2 →
  splitLoop matchAt fuel1 s = splitLoop matchAt fuel2 s.
Proof.
  revert fuel2 s. induction fuel1 as [|fuel1 IH]; intros fuel2 s H1 H2; [lia|].
  destruct fuel2 as [|fuel2]; [lia|]. destruct s as [|c s]; [done|]. simpl in *.
  destruct (matchAt (c :: s)) as [rest|] eqn:Hm.
  - apply matchAt_shorter in Hm. simpl in Hm. f_equal. apply IH; lia.
  - f_equal. apply IH; lia.
Qed.

Lemma jsSplit_nil : jsSplit matchAt [] = [[]].
Proof. done. Qed.

Lemma jsSplit_cons c s :
  jsSplit matchAt (c :: s) =
  match matchAt (c :: s) with
  | Some rest => [] :: splitLoop matchAt (S (length s)) rest
  | None => consFirst c (jsSplit matchAt s)
  end.
Proof. done. Qed.

Lemma jsSplit_match c s rest :
  matchAt (c :: s) = Some rest →
  jsSplit matchAt (c :: s) = [] :: jsSplit matchAt rest.
Proof.
  intros Hm. rewrite jsSplit_cons, Hm. f_equal.
  apply matchAt_shorter in Hm. simpl in Hm. apply splitLoop_fuel; lia.
Qed.

Lemma jsSplit_no_match c s :
  matchAt (c :: s) = None →
  jsSplit matchAt (c :: s) = consFirst c (jsSplit matchAt s).
Proof. intros Hm. by rewrite jsSplit_cons, Hm. Qed.

(** Induction along the scan of [split]. *)
Lemma jsSplit_ind (P : jsstring → Prop) :
  P [] →
  (∀ c s rest, matchAt (c :: s) = Some rest → P rest → P (c :: s)) →
  (∀ c s, matchAt (c :: s) = None → P s → P (c :: s)) →
  ∀ s, P s.
Proof.
  intros Hnil Hmatch Hno s.
  remember (length s) as n eqn:Hn. revert s Hn.
  induction n as [n IH] using lt_wf_ind. intros [|c s] Hn; [done|].
  destruct (matchAt (c :: s)) as [rest|] eqn:Hm.
  - apply (Hmatch c s rest Hm). apply matchAt_shorter in Hm.
    apply (IH (length rest)); [lia | done].
  - apply (Hno c s Hm). simpl in Hn. apply (IH (length s)); [lia | done].
Qed.

Lemma jsSplit_not_nil s : jsSplit matchAt s ≠ [].
Proof.
  destruct s as [|c s]; [done|]. rewrite jsSplit_cons.
  destruct (matchAt (c :: s)); [done|]. by destruct (jsSplit matchAt s).
Qed.

(** The first piece is the beginning of the string. *)
Lemma jsSplit_head_prefix s :
  ∃ piece pieces after, jsSplit matchAt s = piece :: pieces ∧ s = piece ++ after.
Proof.
  induction s as [|c s rest Hm _|c s Hm (piece & pieces & after & Hs & ->)]
    using jsSplit_ind.
  - by exists [], [], [].
  - rewrite (jsSplit_match _ _ _ Hm). by exists [], (jsSplit matchAt rest), (c :: s).
  - rewrite (jsSplit_no_match _ _ Hm), Hs. simpl.
    by exists (c :: piece), pieces, after.
Qed.


End Split.

(** ** Splitting at a plain separator *)

Lemma matchLiteral_Some sep s rest :
  matchLiteral sep s = Some rest ↔ s = sep ++ rest.
Proof.
  revert s. induction sep as [|c sep IH]; intros s; simpl.
  - split; congruence.
  - destruct s as [|d s]; [done|]. destruct (decide (c = d)) as [->|Hne].
    + rewrite IH. split; congruence.
    + split; [done | congruence].
Qed.

Lemma matchLiteral_shorter sep :
  sep ≠ [] → ∀ s rest, matchLiteral sep s = Some rest → length rest < length s.
Proof.
  intros Hsep s rest ->%matchLiteral_Some. rewrite length_app.
  destruct sep; [done|]. simpl. lia.
Qed.

Lemma joinWith_cons sep piece pieces :
  pieces ≠ [] → joinWith sep (piece :: pieces) = piece ++ sep ++ joinWith sep pieces.
Proof. by destruct pieces. Qed.

Lemma joinWith_consFirst sep c pieces :
  pieces ≠ [] → joinWith sep (consFirst c pieces) = c :: joinWith sep pieces.
Proof. by destruct pieces as [|piece [|]]. Qed.

Lemma join_jsSplit sep s :
  sep ≠ [] → joinWith sep (jsSplit (matchLiteral sep) s) = s.
Proof.
  intros Hsep. pose proof (matchLiteral_shorter sep Hsep) as Hshort.
  induction s as [|c s rest Hm IH|c s Hm IH]
    using (jsSplit_ind (matchLiteral sep) Hshort).
  - done.
  - rewrite (jsSplit_match _ Hshort _ _ _ Hm).
    rewrite joinWith_cons by by apply jsSplit_not_nil.
    rewrite IH. by apply matchLiteral_Some in Hm.
  - rewrite (jsSplit_no_match _ _ _ Hm).
    rewrite joinWith_consFirst by by apply jsSplit_not_nil. by rewrite IH.
Qed.

Lemma occursIn_cons sep c piece :
  occursIn sep (c :: piece) →
  (∃ after, c :: piece = sep ++ after) ∨ occursIn sep piece.
Proof.
  intros ([|b before] & after & Heq).
  - left. by exists after.
  - right. simpl in Heq. injection Heq as -> ->. by exists before, after.
Qed.

Lemma jsSplit_separator_free sep s :
  sep ≠ [] → Forall (λ piece, ¬ occursIn sep piece) (jsSplit (matchLiteral sep) s).
Proof.
  intros Hsep. pose proof (matchLiteral_shorter sep Hsep) as Hshort.
  assert (¬ occursIn sep []) as Hempty.
  { intros (before & after & Heq). symmetry in Heq.
    apply app_eq_nil in Heq as [_ Heq]. by apply app_eq_nil in Heq as [-> _]. }
  induction s as [|c s rest Hm IH|c s Hm IH]
    using (jsSplit_ind (matchLiteral sep) Hshort).
  - by constructor.
  - rewrite (jsSplit_match _ Hshort _ _ _ Hm). by constructor.
  - rewrite (jsSplit_no_match _ _ _ Hm).
    destruct (jsSplit_head_prefix (matchLiteral sep) Hshort s)
      as (piece & pieces & after & Hs & Hpre).
    rewrite Hs in IH |- *. simpl. apply Forall_cons in IH as [Hpiece Hpieces].
    constructor; [|done]. intros [[after' Heq]|Hocc]%occursIn_cons; [|done].
    assert (matchLiteral sep (c :: s) = Some (after' ++ after)) as Habs.
    { apply matchLiteral_Some. rewrite Hpre, app_assoc, <- Heq. done. }
    congruence.
Qed.

(** X10.  On each of the three platforms the script knows, the search terms
    read from a non-empty file are the pieces between the line separators of
    that platform and nothing is trimmed or dropped: no term contains the
    separator, and joining the terms with it gives back the file content. *)
Theorem file_terms_join_back (c : N) (content : jsstring) :
  (∃ lines, readSearchTermsFromFile "win32" (Some (c :: content)) = Some lines
     ∧ joinWith [13; 10]%N lines = c :: content
     ∧ Forall (λ line, ¬ occursIn [13; 10]%N line) lines)
  ∧ (∃ lines, readSearchTermsFromFile "darwin" (Some (c :: content)) = Some lines
     ∧ joinWith [13]%N lines = c :: content
     ∧ Forall (λ line, ¬ occursIn [13]%N line) lines)
  ∧ (∃ lines, readSearchTermsFromFile "linux" (Some (c :: content)) = Some lines
     ∧ joinWith [10]%N lines = c :: content
     ∧ Forall (λ line, ¬ occursIn [10]%N line) lines).
Proof.
  repeat split; eexists; (split; [reflexivity|]);
    (split; [by apply join_jsSplit | by apply jsSplit_separator_free]).
Qed.



Lemma jsSplit_trailing matchAt sep :
  (∀ s rest, matchAt s = Some rest → length rest < length s) →
  sep ≠ [] → matchAt sep = Some [] →
  (∀ c s rest, matchAt (c :: s ++ sep) = Some rest → ∃ s', rest = s' ++ sep) →
  ∀ s, last (jsSplit matchAt (s ++ sep)) = Some []
       ∧ (2 ≤ length (jsSplit matchAt (s ++ sep)))%nat.
Proof.
  intros Hshort Hsep Hfull Hkeep s.
  remember (length s) as n eqn:Hn. revert s Hn.
  induction n as [n IH] using lt_wf_ind. intros [|c s] Hn.
  - simpl. destruct sep as [|c0 sep']; [done|].
    by rewrite (jsSplit_match _ Hshort _ _ _ Hfull).
  - simpl in *. destruct (matchAt (c :: s ++ sep)) as [rest|] eqn:Hm.
    + rewrite (jsSplit_match _ Hshort _ _ _ Hm).
      destruct (Hkeep c s rest Hm) as [s' ->].
      apply Hshort in Hm. simpl in Hm. rewrite !length_app in Hm.
      destruct (IH (length s') ltac:(lia) s' eq_refl) as [Hlast Hlen].
      split; [|simpl; lia].
      destruct (jsSplit matchAt (s' ++ sep)) as [|p ps]; [simpl in Hlen; lia|].
      done.
    + rewrite (jsSplit_no_match _ _ _ Hm).
      destruct (IH (length s) ltac:(lia) s eq_refl) as [Hlast Hlen].
      destruct (jsSplit matchAt (s ++ sep)) as [|p1 [|p2 ps]];
        [simpl in Hlen; lia..|]. done.
Qed.

Lemma trailing_literal sep :
  sep = [13; 10]%N ∨ sep = [13]%N ∨ sep = [10]%N →
  ∀ s, last (jsSplit (matchLiteral sep) (s ++ sep)) = Some [].
Proof.
  intros Hsep s.
  assert (sep ≠ []) as Hne by (by destruct Hsep as [->|[->| ->]]).
  apply (jsSplit_trailing (matchLiteral sep) sep); [|done| |].
  - by apply matchLiteral_shorter.
  - apply matchLiteral_Some. by rewrite app_nil_r.
  - intros c s0 rest Hm%matchLiteral_Some.
    destruct Hsep as [->|[->| ->]]; simpl in Hm.
    + destruct s0 as [|d s0]; simpl in Hm; [done|].
      injection Hm as -> -> <-. by exists s0.
    + injection Hm as -> <-. by exists s0.
    + injection Hm as -> <-. by exists s0.
Qed.

(** X12.  Empty lines are kept as search terms: when the file content ends
    with the line separator of the platform, the last term read from it is
    the empty string. *)
Theorem file_terms_trailing_separator (body : jsstring) :
  (∃ lines, readSearchTermsFromFile "win32" (Some (body ++ [13; 10]%N)) = Some lines
     ∧ last lines = Some [])
  ∧ (∃ lines, readSearchTermsFromFile "darwin" (Some (body ++ [13]%N)) = Some lines
     ∧ last lines = Some [])
  ∧ (∃ lines, readSearchTermsFromFile "linux" (Some (body ++ [10]%N)) = Some lines
     ∧ last lines = Some []).
Proof.
  repeat split; eexists.
  - split; [by destruct body|]. apply trailing_literal. tauto.
  - split; [by destruct body|]. apply trailing_literal. tauto.
  - split; [by destruct body|]. apply trailing_literal. tauto.
Qed.

(** ** Splitting the typed terms at the commas *)

Lemma length_skipWhiteSpace s : (length (skipWhiteSpace s) ≤ length s)%nat.
Proof.
  induction s as [|c s IH]; simpl; [done|].
  destruct (isWhiteSpace c); simpl; lia.
Qed.

Lemma skipWhiteSpace_head s c rest :
  skipWhiteSpace s = c :: rest → isWhiteSpace c = false ∧ c ∈ s.
Proof.
  induction s as [|d s IH]; simpl; [done|].
  destruct (isWhiteSpace d) eqn:Hd.
  - intros [? ?]%IH. split; [done|]. apply elem_of_cons. by right.
  - intros [= -> ->]. split; [done|]. apply elem_of_cons. by left.
Qed.

Lemma matchCommaSeparator_shorter s rest :
  matchCommaSeparator s = Some rest → length rest < length s.
Proof.
  unfold matchCommaSeparator.
  pose proof (length_skipWhiteSpace s) as Hs.
  destruct (skipWhiteSpace s) as [|c r]; [done|].
  destruct (decide (c = 44%N)); [|done]. intros [= <-].
  pose proof (length_skipWhiteSpace r). simpl in Hs. lia.
Qed.

Lemma matchCommaSeparator_comma s :
  matchCommaSeparator (44%N :: s) = Some (skipWhiteSpace s).
Proof. done. Qed.


Lemma matchCommaSeparator_no_comma s :
  44%N ∉ s → matchCommaSeparator s = None.
Proof.
  intros Hs. unfold matchCommaSeparator.
  destruct (skipWhiteSpace s) as [|c r] eqn:Hskip; [done|].
  destruct (decide (c = 44%N)) as [->|]; [|done].
  by apply skipWhiteSpace_head in Hskip as [_ ?].
Qed.


Lemma comma_pieces_comma_free s :
  Forall (λ piece, 44%N ∉ piece) (jsSplit matchCommaSeparator s).
Proof.
  induction s as [|c s rest Hm IH|c s Hm IH]
    using (jsSplit_ind matchCommaSeparator matchCommaSeparator_shorter).
  - constructor; [apply not_elem_of_nil | constructor].
  - rewrite (jsSplit_match _ matchCommaSeparator_shorter _ _ _ Hm).
    constructor; [apply not_elem_of_nil | done].
  - rewrite (jsSplit_no_match _ _ _ Hm).
    assert (c ≠ 44%N) as Hc.
    { intros ->. pose proof (matchCommaSeparator_comma s). congruence. }
    destruct (jsSplit matchCommaSeparator s) as [|piece pieces]; simpl.
    + constructor; [|done]. intros Hin%list_elem_of_singleton. congruence.
    + apply Forall_cons in IH as [Hpiece Hpieces]. constructor; [|done].
      apply not_elem_of_cons. split; [congruence | done].
Qed.

(** X13.  No search term taken from the prompt is empty and none contains a
    comma. *)
Theorem inputTerms_nonempty_comma_free (content : jsstring) :
  Forall (λ searchTerm, searchTerm ≠ [] ∧ 44%N ∉ searchTerm) (inputTerms content).
Proof.
  unfold inputTerms. apply Forall_forall. intros t [Ht Hin]%list_elem_of_filter.
  split; [done|].
  pose proof (comma_pieces_comma_free content) as Hall.
  rewrite Forall_forall in Hall. by apply Hall.
Qed.










Lemma jsSplit_no_comma s :
  44%N ∉ s → jsSplit matchCommaSeparator s = [s].
Proof.
  induction s as [|c s IH]; intros Hs; [done|].
  rewrite jsSplit_no_match by by apply matchCommaSeparator_no_comma.
  apply not_elem_of_cons in Hs as [_ Hs]. by rewrite (IH Hs).
Qed.

(** X15.  An answer without a comma is one search term, taken as typed:
    white space at its ends stays, and an answer of nothing but white space
    is a search term too. *)
Theorem inputTerms_without_comma (c : N) (content : jsstring) :
  44%N ∉ c :: content → inputTerms (c :: content) = [c :: content].
Proof.
  intros Hc. unfold inputTerms. rewrite (jsSplit_no_comma _ Hc).
  by rewrite filter_cons, decide_True.
Qed.

Lemma inputTerms_without_comma_witness :
  inputTerms (32%N :: codeUnits " ") = [32%N :: codeUnits " "].
Proof.
  apply (inputTerms_without_comma 32%N (codeUnits " ")).
  vm_compute. intros Hin. apply elem_of_cons in Hin as [Hin|Hin]; [done|].
  apply elem_of_cons in Hin as [Hin|Hin]; [done|]. by apply elem_of_nil in Hin.
Defined.

(** X16.  Empty search terms are removed from the typed answer only: the
    array offered for selection holds the empty string exactly when the file
    was read and one of its lines is empty. *)
Theorem empty_term_only_from_file (importedTerms : option (list jsstring))
  (content : jsstring) :
  [] ∈ terms importedTerms content ↔
  ∃ lines, importedTerms = Some lines ∧ [] ∈ lines.
Proof.
  unfold terms. rewrite elem_of_app. split.
  - intros [Hin|Hin].
    + destruct importedTerms as [lines|]; [by exists lines|].
      by apply elem_of_nil in Hin.
    + unfold inputTerms in Hin. by apply list_elem_of_filter in Hin as [? _].
  - intros (lines & -> & Hin). by left.
Qed.

(** ** From the searches to the rows *)

Lemma lastTitled_elem k rs r : lastTitled k rs = Some r → r ∈ rs.
Proof.
  unfold lastTitled. intros Hr. apply last_Some in Hr as [l Hl].
  assert (r ∈ filter (λ app, title app = k) rs) as Hin
    by (rewrite Hl, elem_of_app, list_elem_of_singleton; by right).
  by apply list_elem_of_filter in Hin as [_ ?].
Qed.

Lemma promiseAll_Fulfilled_elem {A} (ps : list (Settled A)) xs x :
  promiseAll ps = Fulfilled xs → x ∈ xs → Fulfilled x ∈ ps.
Proof.
  revert xs. induction ps as [|[y|] ps IH]; intros xs; simpl; [| |done].
  - intros [= <-] Hx. by apply elem_of_nil in Hx.
  - destruct (promiseAll ps) as [ys|]; [|done]. intros [= <-] Hx.
    apply elem_of_cons. apply elem_of_cons in Hx as [->|Hx]; [by left|].
    right. by apply (IH ys).
Qed.

Lemma elem_of_concat {A} (x : A) (ls : list (list A)) :
  x ∈ concat ls → ∃ l, x ∈ l ∧ l ∈ ls.
Proof.
  induction ls as [|l ls IH]; simpl; [by intros ?%elem_of_nil|].
  intros [Hx|Hx]%elem_of_app.
  - exists l. split; [done|]. apply elem_of_cons. by left.
  - destruct (IH Hx) as (l' & ? & ?). exists l'. split; [done|].
    apply elem_of_cons. by right.
Qed.

(** Every record of a store's array carries one of the search terms. *)
Lemma storeArray_stamped search searchTerms array r :
  storeArray search searchTerms = Some array → r ∈ array →
  ∃ term, term ∈ searchTerms ∧ searchTerm r = Some term.
Proof.
  unfold storeArray.
  destruct (promiseAll (map (scrape search) searchTerms)) as [arrays|] eqn:Hall;
    [|done].
  simpl. intros [= <-] Hr. apply elem_of_concat in Hr as (found & Hr & Hfound).
  apply (promiseAll_Fulfilled_elem _ _ _ Hall), list_elem_of_fmap in Hfound
    as (term & Hscr & Hterm).
  exists term. split; [done|]. unfold scrape in Hscr.
  destruct (search term) as [raw|]; [|done]. injection Hscr as ->.
  apply list_elem_of_fmap in Hr as (r0 & -> & _). done.
Qed.

(** X17.  In every row of a run that reaches the export, the search term
    stored for a store is absent or one of the search terms of the run. *)
Theorem rows_carry_search_terms (googleSearch appleSearch : string → Settled (list App))
  (searchTerms : list string) (run : Run) :
  main googleSearch appleSearch searchTerms = Some run →
  Forall (λ row,
            (searchTermGoogle (app_fields row) = None
             ∨ ∃ term, term ∈ searchTerms
                       ∧ searchTermGoogle (app_fields row) = Some term)
            ∧ (searchTermApple (app_fields row) = None
               ∨ ∃ term, term ∈ searchTerms
                         ∧ searchTermApple (app_fields row) = Some term))
         (exported run).
Proof.
  unfold main.
  destruct (storeArray googleSearch searchTerms) as [gs|] eqn:Hg; [|done].
  destruct (storeArray appleSearch searchTerms) as [as_|] eqn:Ha; [|done].
  simpl. rewrite apps_fold. simpl. intros [= <-]. simpl.
  assert (∀ r, r ∈ gs ++ as_ →
            ∃ term, term ∈ searchTerms ∧ searchTerm r = Some term) as Hstamp.
  { intros r [Hr|Hr]%elem_of_app.
    - by apply (storeArray_stamped googleSearch searchTerms gs).
    - by apply (storeArray_stamped appleSearch searchTerms as_). }
  unfold appsAsArray, JsMap.values. apply Forall_fmap, Forall_fmap.
  apply Forall_forall. intros [k c] Hin.
  apply elem_of_get in Hin; [|apply NoDup_keys_apps].
  rewrite get_fold in Hin. simpl in Hin. rewrite fold_merged in Hin.
  destruct (hasTitle k (gs ++ as_)); [|done]. injection Hin as <-. simpl. split.
  - destruct (lastGoogleTitled k (gs ++ as_)) as [g|] eqn:Hlast; simpl; [|by left].
    right. apply Hstamp. apply lastTitled_elem in Hlast.
    by apply list_elem_of_filter in Hlast as [_ ?].
  - destruct (lastAppleTitled k (gs ++ as_)) as [a|] eqn:Hlast; simpl; [|by left].
    right. apply Hstamp. apply lastTitled_elem in Hlast.
    by apply list_elem_of_filter in Hlast as [_ ?].
Qed.

Lemma rows_carry_search_terms_witness :
  ∃ run, main searchFailingOnChat searchOneApple ["maps"] = Some run
    ∧ Forall (λ row,
            (searchTermGoogle (app_fields row) = None
             ∨ ∃ term, term ∈ ["maps"]
                       ∧ searchTermGoogle (app_fields row) = Some term)
            ∧ (searchTermApple (app_fields row) = None
               ∨ ∃ term, term ∈ ["maps"]
                         ∧ searchTermApple (app_fields row) = Some term))
         (exported run).
Proof.
  eexists. split; [reflexivity|].
  apply (rows_carry_search_terms searchFailingOnChat searchOneApple ["maps"]).
  reflexivity.
Defined.
